(** * persephone: batch, padding, sparse-target and error-rate utilities

    A shallow embedding of [src/utils.py] and the properties its
    specification states about it.

    Conventions of the embedding.
    - Python exceptions are values of [exn]; a computation that may raise
      has type [result A].  The error monad uses stdpp's [x ← m; k].
    - Python integers used as sizes and indices are [nat]; label values are
      [Z]; the quotients and means of [batch_per] (Python floats) are taken
      as exact rationals [Q].
    - A numpy array is its shape and its elements in row-major order; the
      conversion of an element to float64 is a parameter of the functions
      that write into [np.zeros] arrays. *)

From Stdlib Require Import QArith Ascii Lqa.
From stdpp Require Import base tactics option list numbers strings sorting gmap.

Local Open Scope nat_scope.

(** ** Exceptions and the error monad *)

Inductive exn : Set :=
  | IndexError
  | ValueError
  | TypeError
  | AssertionError
  | ZeroDivisionError
  | FileNotFoundError.

Global Instance exn_eq_dec : EqDecision exn.
Proof. solve_decision. Defined.

Inductive result (A : Type) : Type :=
  | Ok (a : A)
  | Raise (e : exn).
Global Arguments Ok {A} a.
Global Arguments Raise {A} e.

Global Instance result_ret : MRet result := λ A a, Ok a.
Global Instance result_bind : MBind result := λ A B f m,
  match m with
  | Ok a => f a
  | Raise e => Raise e
  end.

(** Computations that do not fail an assertion. *)
Definition no_assertion_error {A} (m : result A) : Prop :=
  m ≠ Raise AssertionError.

(** [xs[i]] on a Python list, for a non-negative index. *)
Definition py_index {A} (xs : list A) (i : nat) : result A :=
  match xs !! i with
  | Some x => Ok x
  | None => Raise IndexError
  end.

(** [max(xs)] on a list of non-negative integers. *)
Definition py_max (xs : list nat) : result nat :=
  match xs with
  | [] => Raise ValueError
  | x :: xs' => Ok (foldl Nat.max x xs')
  end.

(** [enumerate(xs)], and [enumerate(xs, k)]. *)
Definition enumerate {A} (xs : list A) : list (nat * A) := imap pair xs.

Definition enumerate_from {A} (k : nat) (xs : list A) : list (nat * A) :=
  imap (λ i x, (k + i, x)) xs.

(** ** The edit distance of [nltk.metrics.distance]

    [batch_per] calls [distance.edit_distance(ref, hyp)] of the nltk
    library, which is not part of this repository.  [edit_distance] follows
    the library's dynamic program (a table [lev] of [len1 + 1] rows and
    [len2 + 1] columns, filled row by row; only the previous row is read, so
    the embedding threads that row).  [levenshtein] is the textbook
    recursive definition of the Levenshtein distance, and [alignment] the
    edit scripts it minimises over. *)

Section edit_distance.
Context {A : Type} `{!EqDecision A}.

(** The cost [(c1 != c2)] of a substitution. *)
Definition subst_cost (c1 c2 : A) : nat := if decide (c1 = c2) then 0 else 1.

(** One row of [_edit_dist_step] calls: [up] ranges over [lev[i-1][j]],
    [diag] is [lev[i-1][j-1]] and [left] is [lev[i][j-1]]. *)
Fixpoint lev_row (c1 : A) (s2 : list A) (prev : list nat) (diag left : nat)
    : list nat :=
  match s2, prev with
  | c2 :: s2', up :: prev' =>
      let a := up + 1 in
      let b := left + 1 in
      let c := diag + subst_cost c1 c2 in
      let d := c + 1 in
      let v := Nat.min a (Nat.min b (Nat.min c d)) in
      v :: lev_row c1 s2' prev' up v
  | _, _ => []
  end.

(** The outer loop over [s1]; [prev] is row [i] of the table, whose
    column 0 was initialised to [i]. *)
Fixpoint lev_rows (s1 s2 : list A) (i : nat) (prev : list nat) : list nat :=
  match s1 with
  | [] => prev
  | c1 :: s1' =>
      lev_rows s1' s2 (S i)
        (S i :: lev_row c1 s2 (tail prev) (hd 0 prev) (S i))
  end.

Definition edit_distance (s1 s2 : list A) : nat :=
  default 0 (last (lev_rows s1 s2 0 (seq 0 (length s2 + 1)))).

Fixpoint levenshtein (s1 s2 : list A) : nat :=
  match s1 with
  | [] => length s2
  | c1 :: s1' =>
      (fix inner (s2 : list A) : nat :=
         match s2 with
         | [] => length s1
         | c2 :: s2' =>
             Nat.min (levenshtein s1' s2 + 1)
               (Nat.min (inner s2' + 1)
                  (levenshtein s1' s2' + subst_cost c1 c2))
         end) s2
  end.

(** Edit scripts turning [s1] into [s2], with their cost. *)
Inductive alignment : list A → list A → nat → Prop :=
  | align_nil : alignment [] [] 0
  | align_del c1 s1 s2 n :
      alignment s1 s2 n → alignment (c1 :: s1) s2 (S n)
  | align_ins c2 s1 s2 n :
      alignment s1 s2 n → alignment s1 (c2 :: s2) (S n)
  | align_sub c1 c2 s1 s2 n :
      alignment s1 s2 n →
      alignment (c1 :: s1) (c2 :: s2) (n + subst_cost c1 c2).

(** Row of the table reached when the reversed prefix [p] of [s1] has been
    read, as the distances it should hold. *)
Definition lev_table_row (p s2 : list A) : list nat :=
  (λ j, levenshtein p (reverse (take j s2))) <$> seq 0 (length s2 + 1).
End edit_distance.

(** ** [batch_per] *)

(** [[phn_i for phn_i in xs if phn_i != 0]]. *)
Definition strip_padding (xs : list Z) : list Z :=
  filter (λ phn_i, phn_i ≠ 0%Z) xs.

(** [a / b] on two Python integers. *)
Definition true_div (a b : nat) : result Q :=
  if decide (b = 0) then Raise ZeroDivisionError
  else Ok (inject_Z (Z.of_nat a) / inject_Z (Z.of_nat b))%Q.

(** [x / n] for a number [x] and a Python integer [n]. *)
Definition div_by_len (x : Q) (n : nat) : result Q :=
  if decide (n = 0) then Raise ZeroDivisionError
  else Ok (x / inject_Z (Z.of_nat n))%Q.

(** The body of [for i in range(len(hyps))], over the remaining indices. *)
Fixpoint batch_per_loop (hyps refs : list (list Z)) (range : list nat)
    (total_per : Q) : result Q :=
  match range with
  | [] => Ok total_per
  | i :: range' =>
      refs_i ← py_index refs i;
      let ref := strip_padding refs_i in
      hyps_i ← py_index hyps i;
      let hyp := strip_padding hyps_i in
      per ← true_div (edit_distance ref hyp) (length ref);
      batch_per_loop hyps refs range' (total_per + per)%Q
  end.

Definition batch_per (hyps refs : list (list Z)) : result Q :=
  total_per ← batch_per_loop hyps refs (seq 0 (length hyps)) 0%Q;
  div_by_len total_per (length hyps).

(** The specification's reading of the result: the mean, over the pairs, of
    the Levenshtein distance of the stripped sequences divided by the
    stripped reference's length. *)
Definition Qsum (qs : list Q) : Q := foldr Qplus 0%Q qs.

Definition mean (qs : list Q) : Q :=
  (Qsum qs / inject_Z (Z.of_nat (length qs)))%Q.

Definition pair_error_rate (hyp ref : list Z) : Q :=
  (inject_Z (Z.of_nat (levenshtein (strip_padding ref) (strip_padding hyp)))
   / inject_Z (Z.of_nat (length (strip_padding ref))))%Q.

Definition mean_error_rate (hyps refs : list (list Z)) : Q :=
  mean (zip_with pair_error_rate hyps refs).


(** ** numpy arrays

    An array is its shape and its elements in row-major (C) order.  The
    element type is a parameter; [np.zeros] takes the element it fills
    with.  In-place updates return the updated array. *)

Record ndarray (A : Type) : Type := NdArray { shape : list nat; data : list A }.
Global Arguments NdArray {A} shape data.
Global Arguments shape {A} _.
Global Arguments data {A} _.

Section numpy.
Context {A : Type}.

(** Number of elements of an array of shape [sh]. *)
Definition size_of (sh : list nat) : nat := foldr Nat.mul 1 sh.

(** Arrays as numpy holds them: as many elements as the shape says. *)
Definition wf (a : ndarray A) : Prop := length (data a) = size_of (shape a).

(** The [i]-th block of [k] consecutive elements. *)
Definition chunk (k i : nat) (d : list A) : list A := take k (drop (i * k) d).

Definition np_zeros (zero : A) (sh : list nat) : ndarray A :=
  NdArray sh (replicate (size_of sh) zero).

(** [a.shape[0]]. *)
Definition shape0 (a : ndarray A) : result nat :=
  match shape a with
  | [] => Raise IndexError
  | n :: _ => Ok n
  end.

(** [a[i]] for [i] in range. *)
Definition np_row (a : ndarray A) (i : nat) : ndarray A :=
  let rest := tail (shape a) in
  NdArray rest (chunk (size_of rest) i (data a)).

(** [a[:n]]. *)
Definition np_prefix (a : ndarray A) (n : nat) : result (ndarray A) :=
  match shape a with
  | [] => Raise IndexError
  | len :: rest =>
      let m := n `min` len in
      Ok (NdArray (m :: rest) (take (m * size_of rest) (data a)))
  end.

(** The sub-arrays [for x in a] ranges over. *)
Definition np_iter (a : ndarray A) : result (list (ndarray A)) :=
  match shape a with
  | [] => Raise TypeError
  | n :: _ => Ok (np_row a <$> seq 0 n)
  end.

(** Broadcasting the elements [d] of an array of shape [src] to the shape
    [dst] of the same number of dimensions: each dimension agrees or is 1
    in the source. *)
Fixpoint broadcast_data (src dst : list nat) (d : list A)
    : result (list A) :=
  match src, dst with
  | [], [] => Ok d
  | s :: src', t :: dst' =>
      if decide (s = t) then
        blocks ← mapM (λ i, broadcast_data src' dst'
                              (chunk (size_of src') i d)) (seq 0 s);
        Ok (mjoin blocks)
      else if decide (s = 1) then
        block ← broadcast_data src' dst' d;
        Ok (mjoin (replicate t block))
      else Raise ValueError
  | _, _ => Raise ValueError
  end.

(** Assignment drops up to [n] leading dimensions of size 1. *)
Fixpoint strip_leading_ones (n : nat) (sh : list nat) : list nat :=
  match n, sh with
  | S n', 1 :: sh' => strip_leading_ones n' sh'
  | _, _ => sh
  end.

(** The elements of [a] as assigned to a target of shape [dst]. *)
Definition np_broadcast_to (a : ndarray A) (dst : list nat)
    : result (list A) :=
  let src := strip_leading_ones (length (shape a) - length dst) (shape a) in
  broadcast_data (replicate (length dst - length src) 1 ++ src) dst (data a).

(** [a.astype(...)]: every element converted by [cast]. *)
Definition np_astype (cast : A → A) (a : ndarray A) : ndarray A :=
  NdArray (shape a) (cast <$> data a).

(** [a[:n] = v]: the elements of [v] are converted by [cast] to the element
    type of [a]. *)
Definition np_set_prefix (cast : A → A) (a : ndarray A) (n : nat)
    (v : ndarray A) : result (ndarray A) :=
  match shape a with
  | [] => Raise IndexError
  | len :: rest =>
      let m := n `min` len in
      d ← np_broadcast_to v (m :: rest);
      Ok (NdArray (shape a) ((cast <$> d) ++ drop (m * size_of rest) (data a)))
  end.

(** [a[i] = v], for [a] and [v] of one element type (no conversion). *)
Definition np_set_row (a : ndarray A) (i : nat) (v : ndarray A)
    : result (ndarray A) :=
  match shape a with
  | [] => Raise IndexError
  | len :: rest =>
      if decide (i < len) then
        d ← np_broadcast_to v rest;
        Ok (NdArray (shape a)
              (take (i * size_of rest) (data a) ++ d
               ++ drop ((i + 1) * size_of rest) (data a)))
      else Raise IndexError
  end.

(** The elements of an [n0] by [n1] grid of blocks of [k] elements, with
    the two grid axes exchanged. *)
Definition swap_blocks (n0 n1 k : nat) (d : list A) : list A :=
  seq 0 n1 ≫= λ j, seq 0 n0 ≫= λ i, chunk k (i * n1 + j) d.

(** [np.swapaxes(a, 0, 1)]. *)
Definition np_swapaxes01 (a : ndarray A) : result (ndarray A) :=
  match shape a with
  | n0 :: n1 :: rest =>
      Ok (NdArray (n1 :: n0 :: rest)
            (swap_blocks n0 n1 (size_of rest) (data a)))
  | _ => Raise ValueError
  end.

(** [np.transpose(a, (1, 0, 2))]. *)
Definition np_transpose102 (a : ndarray A) : result (ndarray A) :=
  match shape a with
  | [n0; n1; n2] => Ok (NdArray [n1; n0; n2] (swap_blocks n0 n1 n2 (data a)))
  | _ => Raise ValueError
  end.

(** The shapes [np.concatenate(..., axis=1)] accepts next to [n0 :: _ :: rest]. *)
Definition joins_on_axis1 (n0 : nat) (rest : list nat) (a : ndarray A) : Prop :=
  match shape a with
  | m0 :: _ :: rest' => m0 = n0 ∧ rest' = rest
  | _ => False
  end.

Global Instance joins_on_axis1_dec n0 rest a : Decision (joins_on_axis1 n0 rest a).
Proof. unfold joins_on_axis1. destruct (shape a) as [|? [|? ?]]; apply _. Defined.

(** The axis-1 length of an array. *)
Definition shape1 (a : ndarray A) : nat := default 0 (shape a !! 1).

(** [np.concatenate(arrays, axis=1)]. *)
Definition np_concatenate_axis1 (arrays : list (ndarray A))
    : result (ndarray A) :=
  match arrays with
  | [] => Raise ValueError
  | first :: _ =>
      match shape first with
      | n0 :: _ :: rest =>
          if decide (Forall (joins_on_axis1 n0 rest) arrays) then
            Ok (NdArray (n0 :: sum_list (shape1 <$> arrays) :: rest)
                  (seq 0 n0 ≫= λ i, arrays ≫= λ a,
                     chunk (shape1 a * size_of rest) i (data a)))
          else Raise ValueError
      | _ => Raise ValueError
      end
  end.

(** [np.array(arrays)] for a list of arrays of one shape. *)
Definition np_array (arrays : list (ndarray A)) : result (ndarray A) :=
  match arrays with
  | [] => Ok (NdArray [0] [])
  | first :: _ =>
      if decide (Forall (λ a, shape a = shape first) arrays) then
        Ok (NdArray (length arrays :: shape first) (arrays ≫= data))
      else Raise ValueError
  end.

(** The element at a full index, by Horner's rule on row-major order. *)
Fixpoint offset (sh idx : list nat) (acc : nat) : nat :=
  match sh, idx with
  | n :: sh', i :: idx' => offset sh' idx' (acc * n + i)
  | _, _ => acc
  end.

Definition np_get (a : ndarray A) (idx : list nat) : option A :=
  data a !! offset (shape a) idx 0.

(** The first-axis length of an array that has one. *)
Definition first_dim (a : ndarray A) : nat := default 0 (head (shape a)).

(** ** [zero_pad], [collapse] and [load_batch_x]

    [np.zeros] gives a float64 array: [zero] is the float64 zero and
    [to_float64] the conversion of an element to float64, which the
    assignment into such an array applies.  An array is float64 when the
    conversion leaves its elements as they are. *)

Definition is_float64 (to_float64 : A → A) (a : ndarray A) : Prop :=
  Forall (λ x, to_float64 x = x) (data a).

Definition zero_pad (zero : A) (to_float64 : A → A) (matrix : ndarray A)
    (to_length : nat) : result (ndarray A) :=
  n ← shape0 matrix;
  if decide (n ≤ to_length) then
    let result := np_zeros zero (to_length :: tail (shape matrix)) in
    np_set_prefix to_float64 result n matrix
  else Raise AssertionError.

Definition collapse_utterance (utterance : ndarray A) : result (ndarray A) :=
  swapped ← np_swapaxes01 utterance;
  arrays ← np_iter swapped;
  np_concatenate_axis1 arrays.

Definition collapse (batch_x : ndarray A) (time_major : bool)
    : result (ndarray A) :=
  utterances ← np_iter batch_x;
  new_batch_x ← mapM collapse_utterance utterances;
  new_batch_x ← np_array new_batch_x;
  if time_major then np_transpose102 new_batch_x else Ok new_batch_x.

(** [np.load(path)] against the files on disk. *)
Definition np_load (fs : string → option (ndarray A)) (path : string)
    : result (ndarray A) :=
  match fs path with
  | Some a => Ok a
  | None => Raise FileNotFoundError
  end.

(** [for i, utt in enumerate(utterances): batch[i] = zero_pad(utt, max_len)],
    from index [i] on. *)
Fixpoint fill_batch (zero : A) (to_float64 : A → A) (batch : ndarray A)
    (max_len i : nat) (utterances : list (ndarray A)) : result (ndarray A) :=
  match utterances with
  | [] => Ok batch
  | utt :: utterances' =>
      padded ← zero_pad zero to_float64 utt max_len;
      batch ← np_set_row batch i padded;
      fill_batch zero to_float64 batch max_len (S i) utterances'
  end.

Definition load_batch_x (zero : A) (to_float64 : A → A)
    (fs : string → option (ndarray A))
    (path_batch : list string) (flatten time_major : bool)
    : result (ndarray A * list nat) :=
  utterances ← mapM (np_load fs) path_batch;
  utter_lens ← mapM shape0 utterances;
  max_len ← py_max utter_lens;
  let batch_size := length path_batch in
  first ← py_index utterances 0;
  let batch := np_zeros zero (batch_size :: max_len :: tail (shape first)) in
  batch ← fill_batch zero to_float64 batch max_len 0 utterances;
  batch ← (if flatten then collapse batch time_major else Ok batch);
  Ok (batch, utter_lens).

(** The elements of an array as float64, followed by the zeros that bring
    its first axis to length [len]. *)
Definition padded_data (zero : A) (to_float64 : A → A) (len : nat)
    (a : ndarray A) : list A :=
  (to_float64 <$> data a)
  ++ replicate ((len - first_dim a) * size_of (tail (shape a))) zero.

(** The batch [load_batch_x] holds before the optional [collapse]: the
    padded arrays one after the other. *)
Definition stacked_batch (zero : A) (to_float64 : A → A)
    (utterances : list (ndarray A)) (trail : list nat) : ndarray A :=
  let max_len := max_list (first_dim <$> utterances) in
  NdArray (length utterances :: max_len :: trail)
    (utterances ≫= padded_data zero to_float64 max_len).
End numpy.


(** Two feature files for the examples: 2 and 3 time steps of one channel
    of two features; their values are float64, written as integers. *)
Definition example_files (path : string) : option (ndarray Z) :=
  if String.eqb path "a.npy" then Some (NdArray [2; 1; 2] [1; 2; 3; 4]%Z)
  else if String.eqb path "b.npy"
  then Some (NdArray [3; 1; 2] [5; 6; 7; 8; 9; 10]%Z)
  else None.

(** Three feature files under [feat/], of 3, 2 and 1 time steps, with
    float64 values written as integers. *)
Definition example_feats (path : string) : option (ndarray Z) :=
  if String.eqb path "feat/u1.fbank.npy"
  then Some (NdArray [3; 1; 2] [5; 6; 7; 8; 9; 10]%Z)
  else if String.eqb path "feat/u2.fbank.npy"
  then Some (NdArray [2; 1; 2] [1; 2; 3; 4]%Z)
  else if String.eqb path "feat/u3.fbank.npy"
  then Some (NdArray [1; 4] [1; 2; 3; 4]%Z)
  else None.

(** ** Conversion to float64 and [np.array] on Python integers

    A float64 holds 53 significant bits: an integer of more bits is rounded
    to the nearest integer of 53 significant bits, ties to the even one.
    [round_to_53_bits] gives the value of the float64 an integer becomes
    (for integers below 2^1024 in magnitude). *)

Definition round_to_53_bits (z : Z) : Z :=
  let m := Z.abs z in
  let e := (Z.log2 m - 52)%Z in
  if (e <=? 0)%Z then z
  else
    let q := Z.shiftr m e in
    let r := (m - Z.shiftl q e)%Z in
    let half := Z.shiftl 1 (e - 1) in
    let q' := if (half <? r)%Z || ((r =? half)%Z && Z.odd q)
              then (q + 1)%Z else q in
    (Z.sgn z * Z.shiftl q' e)%Z.

(** The element type [np.array] finds for a list of Python integers: each
    integer is an int64 when it fits, else a uint64 when it fits, else a
    Python object; an int64 beside a uint64 makes the array float64. *)
Inductive dtype : Set := Int64 | UInt64 | Float64 | Object.

Definition is_int64 (v : Z) : Prop := (- 2 ^ 63 ≤ v < 2 ^ 63)%Z.

Definition dtype_of_int (v : Z) : dtype :=
  if (- 2 ^ 63 <=? v)%Z && (v <? 2 ^ 63)%Z then Int64
  else if (0 <=? v)%Z && (v <? 2 ^ 64)%Z then UInt64
  else Object.

Definition promote (d1 d2 : dtype) : dtype :=
  match d1, d2 with
  | Object, _ | _, Object => Object
  | Float64, _ | _, Float64 => Float64
  | Int64, Int64 => Int64
  | UInt64, UInt64 => UInt64
  | Int64, UInt64 | UInt64, Int64 => Float64
  end.

Definition dtype_of_ints (vals : list Z) : dtype :=
  match vals with
  | [] => Float64
  | val :: vals' =>
      foldl (λ d v, promote d (dtype_of_int v)) (dtype_of_int val) vals'
  end.

(** The numbers [np.array(vals)] holds: the integers themselves, rounded
    when the array is float64. *)
Definition np_array_ints (vals : list Z) : list Z :=
  match dtype_of_ints vals with
  | Float64 => round_to_53_bits <$> vals
  | _ => vals
  end.

(** ** [target_list_to_sparse_tensor] *)

(** The inner loop: one [append] to each accumulator per label. *)
Definition sparse_row (t_i : nat) (target : list Z)
    (acc : list (nat * nat) * list Z) : list (nat * nat) * list Z :=
  foldl (λ '(indices, vals) '(seq_i, val),
           (indices ++ [(t_i, seq_i)], vals ++ [val]))
        acc (enumerate target).

(** The outer loop over [enumerate(target_list)]. *)
Definition sparse_rows (target_list : list (list Z))
    : list (nat * nat) * list Z :=
  foldl (λ acc '(t_i, target), sparse_row t_i target acc)
        ([], []) (enumerate target_list).

(** [np.asarray(indices).max(0)[1]]: the largest second component; the
    reduction of an array without elements raises. *)
Definition max_column (indices : list (nat * nat)) : result nat :=
  py_max (snd <$> indices).

Definition target_list_to_sparse_tensor (target_list : list (list Z))
    : result (list (nat * nat) * list Z * (nat * nat)) :=
  let '(indices, vals) := sparse_rows target_list in
  max_col ← max_column indices;
  Ok (indices, np_array_ints vals, (length target_list, max_col + 1)).

(** The specification's reading of the three results. *)
Definition row_indices (row : nat * list Z) : list (nat * nat) :=
  (λ seq_i, (row.1, seq_i)) <$> seq 0 (length row.2).

Definition coo_indices (target_list : list (list Z)) : list (nat * nat) :=
  enumerate target_list ≫= row_indices.

Definition max_length (target_list : list (list Z)) : nat :=
  max_list (length <$> target_list).

(** Index pairs in increasing order of row, then of column. *)
Definition index_lt (p q : nat * nat) : Prop :=
  p.1 < q.1 ∨ (p.1 = q.1 ∧ p.2 < q.2).

(** Decoding: write each value at its index into a zero-filled array of the
    given shape. *)
Definition scatter_step (dense : list (list Z)) (entry : nat * nat * Z)
    : list (list Z) :=
  let '((row, col), val) := entry in alter (<[col := val]>) row dense.

Definition scatter (indices : list (nat * nat)) (vals : list Z)
    (shape : nat * nat) : list (list Z) :=
  foldl scatter_step (replicate shape.1 (replicate shape.2 0%Z))
        (zip indices vals).

(** A sequence zero-padded at its end to length [len]. *)
Definition pad_to (len : nat) (target : list Z) : list Z :=
  target ++ replicate (len - length target) 0%Z.

(** ** [get_prefixes] *)

(** [s.endswith(suffix)]. *)
Definition endswith (s suffix : string) : bool :=
  let n := String.length s in
  let m := String.length suffix in
  bool_decide (m ≤ n) && String.eqb (String.substring (n - m) m s) suffix.

(** [s.startswith(prefix)]. *)
Definition startswith (s prefix : string) : bool := String.prefix prefix s.

(** [s.split(".")[0]]: the characters before the first period. *)
Fixpoint before_period (s : string) : string :=
  match s with
  | EmptyString => EmptyString
  | String c s' =>
      if Stdlib.Strings.Ascii.eqb c "."%char then EmptyString else String c (before_period s')
  end.

(** [os.path.join(a, b)] of [posixpath]. *)
Definition path_join (a b : string) : string :=
  if startswith b "/" then b
  else if String.eqb a "" || endswith a "/" then a +:+ b
  else a +:+ "/" +:+ b.

(** A directory: its files and its named sub-directories, in the order the
    system lists them. *)
#[warnings="-register-all"]
Inductive dirtree : Type :=
  | Dir (files : list string) (subdirs : list (string * dirtree)).

(** [os.walk(top)], top-down: a triple per directory. *)
Fixpoint os_walk (top : string) (tree : dirtree)
    : list (string * list string * list string) :=
  match tree with
  | Dir files subdirs =>
      (top, fst <$> subdirs, files)
      :: (fix walk_subdirs (ds : list (string * dirtree)) :=
            match ds with
            | [] => []
            | (name, sub) :: ds' =>
                os_walk (path_join top name) sub ++ walk_subdirs ds'
            end) subdirs
  end.

(** The two loops of [get_prefixes] over what [os.walk] yields. *)
Definition collect_prefixes (walk : list (string * list string * list string))
    (extension : string) : list string :=
  foldl (λ prefixes '(root, _, filenames),
           foldl (λ prefixes filename,
                    if endswith filename extension
                    then prefixes ++ [path_join root (before_period filename)]
                    else prefixes)
                 prefixes filenames)
        [] walk.

(** [sorted] on strings: ascending in the order of their characters. *)
Definition sorted (xs : list string) : list string := merge_sort (≤)%string xs.

Definition get_prefixes (dirname : string) (tree : dirtree) (extension : string)
    : list string :=
  sorted (collect_prefixes (os_walk dirname tree) extension).

(** The specification's reading: one identifier per matching file. *)
Definition matching_identifiers
    (walk : list (string * list string * list string)) (extension : string)
    : list string :=
  walk ≫= λ '(root, _, filenames),
    (λ filename, path_join root (before_period filename))
      <$> filter (λ filename, endswith filename extension = true) filenames.


(** ** [remove_multi] *)

(** [list(filter(lambda x: x != to_remove, target_list))]. *)
Definition remove_multi {A : Type} `{!EqDecision A} (to_remove : A)
    (target_list : list A) : list A :=
  filter (λ x, x ≠ to_remove) target_list.

(** ** [get_prefix_lens] and [filter_by_size] *)

(** ["%s.%s.npy" % (prefix, feat_type)]. *)
Definition feat_filename (prefix feat_type : string) : string :=
  prefix +:+ "." +:+ feat_type +:+ ".npy".

(** The loop of [get_prefix_lens] over the remaining prefixes: each length
    is read through [load_batch_x([path], flatten=False)]. *)
Fixpoint get_prefix_lens_loop {A : Type} (zero : A) (to_float64 : A → A)
    (fs : string → option (ndarray A)) (feat_dir feat_type : string)
    (prefixes : list string) (prefix_lens : list (string * nat))
    : result (list (string * nat)) :=
  match prefixes with
  | [] => Ok prefix_lens
  | prefix :: prefixes' =>
      let path := path_join feat_dir (feat_filename prefix feat_type) in
      loaded ← load_batch_x zero to_float64 fs [path] false false;
      let batch_x_lens := loaded.2 in
      len ← py_index batch_x_lens 0;
      get_prefix_lens_loop zero to_float64 fs feat_dir feat_type prefixes'
        (prefix_lens ++ [(prefix, len)])
  end.

Definition get_prefix_lens {A : Type} (zero : A) (to_float64 : A → A)
    (fs : string → option (ndarray A)) (feat_dir : string)
    (prefixes : list string) (feat_type : string)
    : result (list (string * nat)) :=
  get_prefix_lens_loop zero to_float64 fs feat_dir feat_type prefixes [].

(** The first-axis length of the array stored for [prefix], 0 without a
    file. *)
Definition stored_length {A : Type} (fs : string → option (ndarray A))
    (feat_dir feat_type prefix : string) : nat :=
  from_option first_dim 0
    (fs (path_join feat_dir (feat_filename prefix feat_type))).

(** The file of [prefix] holds an array with a first axis. *)
Definition stored {A : Type} (fs : string → option (ndarray A))
    (feat_dir feat_type prefix : string) : Prop :=
  ∃ utt n trail,
    fs (path_join feat_dir (feat_filename prefix feat_type)) = Some utt
    ∧ wf utt ∧ shape utt = n :: trail.

(** [[prefix for prefix, length in prefix_lens if length <= max_samples]]. *)
Definition prefixes_within (max_samples : nat)
    (prefix_lens : list (string * nat)) : list string :=
  fst <$> filter (λ prefix_len, prefix_len.2 ≤ max_samples) prefix_lens.

Definition filter_by_size {A : Type} (zero : A) (to_float64 : A → A)
    (fs : string → option (ndarray A)) (feat_dir : string)
    (prefixes : list string) (feat_type : string) (max_samples : nat)
    : result (list string) :=
  prefix_lens ← get_prefix_lens zero to_float64 fs feat_dir prefixes feat_type;
  Ok (prefixes_within max_samples prefix_lens).

(** ** [calc_time] *)

(** The loop of [calc_time]: [wav_read] gives the sampling rate and the
    number of samples of a WAV file; the second component of the state is
    what has been printed. *)
Fixpoint calc_time_loop (wav_read : string → option (nat * nat))
    (wav_paths : list string) (total_secs : Q) (printed : list string)
    : result (Q * list string) :=
  match wav_paths with
  | [] => Ok (total_secs, printed)
  | path :: wav_paths' =>
      let printed := printed ++ [path] in
      match wav_read path with
      | None => Raise FileNotFoundError
      | Some (rate, len_sig) =>
          secs ← true_div len_sig rate;
          calc_time_loop wav_read wav_paths' (total_secs + secs)%Q printed
      end
  end.

(** The duration in seconds of the file at [path], 0 without a file. *)
Definition wav_seconds (wav_read : string → option (nat * nat))
    (path : string) : Q :=
  match wav_read path with
  | Some (rate, len_sig) =>
      (inject_Z (Z.of_nat len_sig) / inject_Z (Z.of_nat rate))%Q
  | None => 0%Q
  end.

(** Two WAV files for the examples, as (rate, number of samples). *)
Definition example_wavs (path : string) : option (nat * nat) :=
  if String.eqb path "a.wav" then Some (4, 8)
  else if String.eqb path "b.wav" then Some (2, 1)
  else None.

Definition calc_time (wav_read : string → option (nat * nat))
    (wav_paths : list string) : result (Q * list string) :=
  done ← calc_time_loop wav_read wav_paths 0%Q [];
  Ok ((done.1 / 60)%Q, done.2).

(** ** [utterances_from_eaf] of [preprocess/elan.py]

    Paths are values of a type [path] with the operations of [pathlib] the
    function uses; the file system and the reader of [.eaf] files are
    parameters.  A media descriptor is the dictionary the reader gives. *)

Module Elan.

Inductive exn : Set :=
  | KeyError
  | FileNotFoundError
  | ParseError.

Record pathlib (path : Type) : Type := Pathlib {
  parent : path → path;              (* [p.parent] *)
  joinpath : path → string → path;   (* [p / s] *)
  name : string → string;            (* [Path(s).name] *)
  is_file : path → bool              (* [p.is_file()] *)
}.
Global Arguments parent {path} _ _.
Global Arguments joinpath {path} _ _ _.
Global Arguments name {path} _ _.
Global Arguments is_file {path} _ _.

Definition media_descriptor : Type := gmap string string.

Section utterances_from_eaf.
Context {path : Type} (os : pathlib path).

(** One [for md in eafob.media_descriptors] loop: the first candidate that
    is a file, [None] when the loop runs out. *)
Fixpoint first_media_file (candidate : string → path)
    (media_descriptors : list media_descriptor) : exn + option path :=
  match media_descriptors with
  | [] => inr None
  | md :: media_descriptors' =>
      match md !! "RELATIVE_MEDIA_URL" with
      | None => inl KeyError
      | Some url =>
          let media_path := candidate url in
          if is_file os media_path then inr (Some media_path)
          else first_media_file candidate media_descriptors'
      end
  end.

Definition relative_candidate (eaf_path : path) (url : string) : path :=
  joinpath os (parent os eaf_path) url.

Definition same_directory_candidate (eaf_path : path) (url : string) : path :=
  joinpath os (parent os eaf_path) (name os url).

Definition get_eaf_media_path (eaf_path : path)
    (media_descriptors : list media_descriptor) : exn + path :=
  match first_media_file (relative_candidate eaf_path) media_descriptors with
  | inl e => inl e
  | inr (Some media_path) => inr media_path
  | inr None =>
      match first_media_file (same_directory_candidate eaf_path)
              media_descriptors with
      | inl e => inl e
      | inr (Some media_path) => inr media_path
      | inr None => inl FileNotFoundError
      end
  end.

(** [utterances_from_eaf]: the result is what the call prints; it returns
    no utterances. *)
Definition utterances_from_eaf
    (read_eaf : path → option (list media_descriptor)) (eaf_path : path)
    : exn + list path :=
  if is_file os eaf_path then
    match read_eaf eaf_path with
    | None => inl ParseError
    | Some media_descriptors =>
        match get_eaf_media_path eaf_path media_descriptors with
        | inl e => inl e
        | inr media_path => inr [media_path]
        end
    end
  else inl FileNotFoundError.
End utterances_from_eaf.

End Elan.

(** A directory [corpus] for the examples, holding [x.eaf], [b.wav] and
    [media/c.wav]; paths are strings. *)
Definition example_os : Elan.pathlib string :=
  {| Elan.parent := λ _, "corpus";
     Elan.joinpath := λ p s, p +:+ "/" +:+ s;
     Elan.name := λ url,
       if String.eqb url "media/a.wav" then "a.wav"
       else if String.eqb url "media/b.wav" then "b.wav"
       else if String.eqb url "media/c.wav" then "c.wav"
       else url;
     Elan.is_file := λ p,
       String.eqb p "corpus/x.eaf" || String.eqb p "corpus/b.wav"
       || String.eqb p "corpus/media/c.wav" |}.

Definition example_descriptor (url : string) : Elan.media_descriptor :=
  {[ "RELATIVE_MEDIA_URL" := url ]}.

(** * Properties *)

(** ** The error monad *)

Lemma bind_Ok {A B} (f : A → result B) (m : result A) (b : B) :
  m ≫= f = Ok b ↔ ∃ a, m = Ok a ∧ f a = Ok b.
Proof.
  destruct m as [a|e]; simpl; split.
  - intros H. exists a. auto.
  - intros (a' & [= <-] & H). exact H.
  - intros [=].
  - intros (a' & [=] & _).
Qed.

Lemma bind_Raise {A B} (f : A → result B) (m : result A) (e : exn) :
  m ≫= f = Raise e ↔ m = Raise e ∨ ∃ a, m = Ok a ∧ f a = Raise e.
Proof.
  destruct m as [a|e']; simpl; split.
  - intros H. right. exists a. auto.
  - intros [[=]|(a' & [= <-] & H)]. exact H.
  - intros [= <-]. by left.
  - intros [[= <-]|(a' & [=] & _)]. done.
Qed.

Lemma mapM_Ok_Forall2 {A B} (f : A → result B) (l : list A) (k : list B) :
  mapM f l = Ok k ↔ Forall2 (λ x y, f x = Ok y) l k.
Proof.
  revert k. induction l as [|x l IH]; intros k; simpl.
  - split; [intros [= <-]; constructor | by inversion 1].
  - split.
    + intros (y & Hy & (k' & Hk' & [= <-])%bind_Ok)%bind_Ok.
      constructor; [done | by apply IH].
    + inversion 1 as [|? y ? k' Hy Hk']; subst.
      apply IH in Hk'. by rewrite Hy, Hk'.
Qed.

Lemma mapM_Ok_fmap_fmap {A B C} (f : B → result C) (h : A → B) (g : A → C)
    (l : list A) :
  Forall (λ x, f (h x) = Ok (g x)) l → mapM f (h <$> l) = Ok (g <$> l).
Proof.
  induction 1 as [|x l Hx _ IH]; [done|].
  cbn [fmap list_fmap mapM]. change (list_fmap A B h l) with (h <$> l).
  rewrite Hx. cbn [mbind result_bind]. by rewrite IH.
Qed.

Lemma mapM_Ok_fmap {A B} (f : A → result B) (g : A → B) (l : list A) :
  Forall (λ x, f x = Ok (g x)) l → mapM f l = Ok (g <$> l).
Proof.
  induction 1 as [|x l Hx _ IH]; simpl; [done|]. by rewrite Hx, IH.
Qed.

(** ** The edit distance *)

Section edit_distance_facts.
Context {A : Type} `{!EqDecision A}.
Implicit Types s p q : list A.

Lemma levenshtein_nil_r s : levenshtein s [] = length s.
Proof. by destruct s. Qed.

Lemma levenshtein_cons c1 s1 c2 s2 :
  levenshtein (c1 :: s1) (c2 :: s2) =
    Nat.min (levenshtein s1 (c2 :: s2) + 1)
      (Nat.min (levenshtein (c1 :: s1) s2 + 1)
         (levenshtein s1 s2 + subst_cost c1 c2)).
Proof. reflexivity. Qed.

(** The recursive distance is the cost of some edit script ... *)
Lemma alignment_levenshtein s1 s2 : alignment s1 s2 (levenshtein s1 s2).
Proof.
  revert s2. induction s1 as [|c1 s1 IH1]; intros s2.
  - induction s2 as [|c2 s2 IH2]; simpl; [constructor|].
    by apply align_ins.
  - induction s2 as [|c2 s2 IH2].
    + rewrite levenshtein_nil_r. simpl. apply align_del.
      specialize (IH1 []). by rewrite levenshtein_nil_r in IH1.
    + rewrite levenshtein_cons.
      destruct (Nat.min_spec (levenshtein s1 (c2 :: s2) + 1)
        (Nat.min (levenshtein (c1 :: s1) s2 + 1)
           (levenshtein s1 s2 + subst_cost c1 c2))) as [[_ ->]|[_ ->]].
      { rewrite Nat.add_1_r. apply align_del, IH1. }
      destruct (Nat.min_spec (levenshtein (c1 :: s1) s2 + 1)
        (levenshtein s1 s2 + subst_cost c1 c2)) as [[_ ->]|[_ ->]].
      { rewrite Nat.add_1_r. apply align_ins, IH2. }
      apply align_sub, IH1.
Qed.

(** ... and no edit script is cheaper. *)
Lemma levenshtein_le s1 s2 n : alignment s1 s2 n → levenshtein s1 s2 ≤ n.
Proof.
  induction 1 as [|c1 s1 s2 n _ IH|c2 s1 s2 n _ IH|c1 c2 s1 s2 n _ IH].
  - done.
  - destruct s2 as [|c2 s2].
    + rewrite levenshtein_nil_r in *. simpl. lia.
    + rewrite levenshtein_cons. lia.
  - destruct s1 as [|c1 s1].
    + simpl in *. lia.
    + rewrite levenshtein_cons. lia.
  - rewrite levenshtein_cons. lia.
Qed.

Lemma alignment_snoc_del c s1 s2 n :
  alignment s1 s2 n → alignment (s1 ++ [c]) s2 (S n).
Proof.
  induction 1; simpl.
  - apply align_del, align_nil.
  - by apply align_del.
  - by apply align_ins.
  - by apply (align_sub _ _ _ _ (S _)).
Qed.

Lemma alignment_snoc_ins c s1 s2 n :
  alignment s1 s2 n → alignment s1 (s2 ++ [c]) (S n).
Proof.
  induction 1; simpl.
  - apply align_ins, align_nil.
  - by apply align_del.
  - by apply align_ins.
  - by apply (align_sub _ _ _ _ (S _)).
Qed.

Lemma alignment_snoc_sub c1 c2 s1 s2 n :
  alignment s1 s2 n →
  alignment (s1 ++ [c1]) (s2 ++ [c2]) (n + subst_cost c1 c2).
Proof.
  induction 1 as [|d1 s1 s2 n _ IH|d2 s1 s2 n _ IH|d1 d2 s1 s2 n _ IH]; simpl.
  - apply (align_sub _ _ _ _ 0), align_nil.
  - by apply align_del.
  - by apply align_ins.
  - replace (n + subst_cost d1 d2 + subst_cost c1 c2)
      with (n + subst_cost c1 c2 + subst_cost d1 d2) by lia.
    by apply align_sub.
Qed.

Lemma alignment_reverse s1 s2 n :
  alignment s1 s2 n → alignment (reverse s1) (reverse s2) n.
Proof.
  induction 1; rewrite ?reverse_cons.
  - constructor.
  - by apply alignment_snoc_del.
  - by apply alignment_snoc_ins.
  - by apply alignment_snoc_sub.
Qed.

Lemma levenshtein_reverse s1 s2 :
  levenshtein (reverse s1) (reverse s2) = levenshtein s1 s2.
Proof.
  apply Nat.le_antisymm.
  - apply levenshtein_le, alignment_reverse, alignment_levenshtein.
  - rewrite <-(reverse_involutive s1), <-(reverse_involutive s2) at 1.
    apply levenshtein_le, alignment_reverse, alignment_levenshtein.
Qed.

(** A row of the table holds the distances from the reversed prefix [p] of
    [s1] read so far to the reversed prefixes of [s2]. *)
Lemma lev_row_spec c1 p rest q :
  lev_row c1 rest
    ((λ k, levenshtein p (reverse (take (S k) rest) ++ q))
       <$> seq 0 (length rest))
    (levenshtein p q) (levenshtein (c1 :: p) q)
  = (λ k, levenshtein (c1 :: p) (reverse (take (S k) rest) ++ q))
      <$> seq 0 (length rest).
Proof.
  revert q. induction rest as [|c2 rest IH]; intros q; [done|].
  cbn [length seq fmap list_fmap lev_row].
  assert (Hhd : reverse (take 1 (c2 :: rest)) ++ q = c2 :: q) by done.
  rewrite !Hhd. f_equal.
  { rewrite levenshtein_cons. lia. }
  rewrite <-!fmap_S_seq, <-!list_fmap_compose.
  assert (Hk : ∀ k, reverse (take (S (S k)) (c2 :: rest)) ++ q
                    = reverse (take (S k) rest) ++ c2 :: q).
  { intros k. cbn [take]. rewrite reverse_cons, <-app_assoc. done. }
  rewrite (list_fmap_ext _ (λ k, levenshtein p
             (reverse (take (S k) rest) ++ c2 :: q)) (seq 0 (length rest)))
    by (intros; unfold compose; by rewrite Hk).
  rewrite (list_fmap_ext (_ ∘ S) (λ k, levenshtein (c1 :: p)
             (reverse (take (S k) rest) ++ c2 :: q)) (seq 0 (length rest)))
    by (intros; unfold compose; by rewrite Hk).
  replace (Nat.min (levenshtein p (c2 :: q) + 1) _)
    with (levenshtein (c1 :: p) (c2 :: q)) by (rewrite levenshtein_cons; lia).
  apply IH.
Qed.

Lemma lev_rows_spec s1 s2 p :
  lev_rows s1 s2 (length p) (lev_table_row p s2)
  = lev_table_row (reverse s1 ++ p) s2.
Proof.
  revert p. induction s1 as [|c1 s1 IH]; intros p; [done|].
  cbn [lev_rows]. rewrite reverse_cons, <-app_assoc. cbn [app].
  rewrite <-(IH (c1 :: p)). cbn [length]. f_equal.
  unfold lev_table_row. rewrite Nat.add_1_r.
  cbn [seq fmap list_fmap hd tail take reverse].
  rewrite levenshtein_nil_r. f_equal.
  rewrite <-!fmap_S_seq, <-!list_fmap_compose.
  pose proof (lev_row_spec c1 p s2 []) as H.
  rewrite levenshtein_nil_r in H. cbn [length] in H.
  rewrite (list_fmap_ext _ (levenshtein p ∘ reverse ∘ flip take s2 ∘ S)
             (seq 0 (length s2))) in H
    by (intros; simpl; by rewrite app_nil_r).
  rewrite (list_fmap_ext (λ k, levenshtein (c1 :: p) _)
             (levenshtein (c1 :: p) ∘ reverse ∘ flip take s2 ∘ S)
             (seq 0 (length s2))) in H
    by (intros; simpl; by rewrite app_nil_r).
  exact H.
Qed.

(** The library's dynamic program computes the Levenshtein distance. *)
Lemma edit_distance_levenshtein s1 s2 :
  edit_distance s1 s2 = levenshtein s1 s2.
Proof.
  unfold edit_distance.
  pose proof (lev_rows_spec s1 s2 []) as H.
  unfold lev_table_row at 1 in H. cbn [length] in H.
  rewrite (list_fmap_ext _ id (seq 0 (length s2 + 1))) in H.
  2:{ intros i j [-> ?]%lookup_seq. simpl.
      rewrite length_reverse, length_take. lia. }
  rewrite list_fmap_id in H. rewrite H, app_nil_r.
  unfold lev_table_row. rewrite Nat.add_1_r, seq_S, fmap_app.
  cbn [fmap list_fmap]. rewrite last_snoc. simpl. rewrite take_ge by done. apply levenshtein_reverse.
Qed.

Lemma levenshtein_diag s : levenshtein s s = 0.
Proof.
  induction s as [|c s IH]; [done|].
  rewrite levenshtein_cons, IH. unfold subst_cost.
  rewrite decide_True by done. lia.
Qed.
End edit_distance_facts.

(** ** [batch_per] *)

Lemma true_div_Ok a b :
  b ≠ 0 → true_div a b = Ok (inject_Z (Z.of_nat a) / inject_Z (Z.of_nat b))%Q.
Proof. intros. unfold true_div. by rewrite decide_False. Qed.

Lemma length_strip_padding_nonzero xs :
  strip_padding xs ≠ [] → length (strip_padding xs) ≠ 0.
Proof. by destruct (strip_padding xs). Qed.

(** The loop adds the error rates of the pairs it has not visited yet. *)
Lemma batch_per_loop_sum hyps refs n k total :
  k + n = length hyps → length hyps = length refs →
  Forall (λ ref, strip_padding ref ≠ []) refs →
  ∃ per, batch_per_loop hyps refs (seq k n) total = Ok per
    ∧ (per == total + Qsum (zip_with pair_error_rate (drop k hyps) (drop k refs)))%Q.
Proof.
  intros Hlen Heq Hrefs. revert k total Hlen.
  induction n as [|n IH]; intros k total Hlen; cbn [seq batch_per_loop].
  - exists total. split; [done|].
    rewrite drop_ge by lia. simpl. ring.
  - destruct (lookup_lt_is_Some_2 hyps k) as [hyp Hhyp]; [lia|].
    destruct (lookup_lt_is_Some_2 refs k) as [ref Href]; [lia|].
    unfold py_index. rewrite Hhyp, Href. cbn [mbind result_bind].
    assert (Hne : strip_padding ref ≠ []).
    { by apply (Forall_lookup_1 _ _ _ _ Hrefs Href). }
    rewrite true_div_Ok by by apply length_strip_padding_nonzero.
    cbn [mbind result_bind].
    destruct (IH (S k) (total + inject_Z (Z.of_nat (edit_distance
                (strip_padding ref) (strip_padding hyp)))
              / inject_Z (Z.of_nat (length (strip_padding ref))))%Q)
      as (per & -> & Hper); [lia|].
    exists per. split; [done|]. rewrite Hper.
    rewrite (drop_S hyps hyp k), (drop_S refs ref k) by done.
    cbn [zip_with Qsum foldr]. unfold pair_error_rate at 2.
    rewrite edit_distance_levenshtein. unfold Qsum. ring.
Qed.

(** Pairs that agree after stripping contribute nothing. *)
Lemma Qsum_identical hyps refs :
  Forall2 (λ hyp ref, strip_padding hyp = strip_padding ref) hyps refs →
  (Qsum (zip_with pair_error_rate hyps refs) == 0)%Q.
Proof.
  induction 1 as [|hyp ref hyps refs Hx _ IH]; [done|].
  cbn [zip_with Qsum foldr]. fold (Qsum (zip_with pair_error_rate hyps refs)).
  rewrite IH. unfold pair_error_rate. rewrite Hx, levenshtein_diag.
  unfold Qdiv. simpl. ring.
Qed.

(** The first all-padding reference the loop meets stops it. *)
Lemma batch_per_loop_zero_reference hyps refs n k total i ref :
  k ≤ i < k + n → i < length hyps →
  refs !! i = Some ref → strip_padding ref = [] →
  batch_per_loop hyps refs (seq k n) total = Raise ZeroDivisionError.
Proof.
  intros Hi Hhyps Href Hempty. revert k total Hi.
  induction n as [|n IH]; intros k total Hi; [lia|].
  cbn [seq batch_per_loop].
  destruct (lookup_lt_is_Some_2 hyps k) as [hyp_k Hhyp_k]; [lia|].
  destruct (lookup_lt_is_Some_2 refs k) as [ref_k Href_k].
  { apply lookup_lt_Some in Href. lia. }
  unfold py_index. rewrite Hhyp_k, Href_k. cbn [mbind result_bind].
  unfold true_div. case_decide as Hlen; [done|].
  cbn [mbind result_bind]. apply IH.
  destruct (decide (k = i)) as [->|]; [|lia].
  rewrite Href in Href_k. injection Href_k as <-.
  by rewrite Hempty in Hlen.
Qed.

Lemma strip_padding_nonempty ref :
  (∃ phn, phn ∈ ref ∧ phn ≠ 0%Z) → strip_padding ref ≠ [].
Proof.
  intros (phn & Hin & Hne) Hnil.
  assert (phn ∈ strip_padding ref) as Hin'.
  { unfold strip_padding. by apply list_elem_of_filter. }
  rewrite Hnil in Hin'. by apply not_elem_of_nil in Hin'.
Qed.

Lemma strip_padding_all_zero ref :
  Forall (λ phn, phn = 0%Z) ref → strip_padding ref = [].
Proof.
  induction 1 as [|phn ref -> _ IH]; [done|].
  unfold strip_padding. rewrite filter_cons_False by (intros H; by apply H).
  exact IH.
Qed.

(** C1 (as amended): on non-empty batches of equal length whose references
    each hold a non-zero entry, [batch_per] returns the mean over the pairs
    of the Levenshtein distance between the stripped sequences divided by
    the stripped reference's length; the mean is 0 when every hypothesis
    equals its reference after stripping, and reference [1,2,3] against
    hypothesis [1,3] gives 1/3. *)
Theorem batch_per_mean (hyps refs : list (list Z)) :
  hyps ≠ [] →
  length hyps = length refs →
  Forall (λ ref, ∃ phn, phn ∈ ref ∧ phn ≠ 0%Z) refs →
  ∃ per, batch_per hyps refs = Ok per
    ∧ (per == mean_error_rate hyps refs)%Q
    ∧ (Forall2 (λ hyp ref, strip_padding hyp = strip_padding ref) hyps refs →
       (per == 0)%Q)
    ∧ batch_per [[1; 3]]%Z [[1; 2; 3]]%Z = Ok (1 # 3)%Q.
Proof.
  intros Hne Hlen Hrefs.
  assert (Hrefs' : Forall (λ ref, strip_padding ref ≠ []) refs).
  { eapply Forall_impl; [exact Hrefs|]. apply strip_padding_nonempty. }
  destruct (batch_per_loop_sum hyps refs (length hyps) 0 0%Q)
    as (total & Hloop & Htotal); [done..|].
  unfold batch_per. rewrite Hloop. cbn [mbind result_bind].
  unfold div_by_len. rewrite decide_False by by destruct hyps.
  eexists. split; [done|].
  rewrite Htotal. cbn [drop]. rewrite Qplus_0_l.
  split; [|split; [|done]].
  - unfold mean_error_rate, mean. rewrite length_zip_with.
    by rewrite <-Hlen, Nat.min_id.
  - intros Hsame. rewrite (Qsum_identical _ _ Hsame). by unfold Qdiv; ring.
Qed.

Lemma batch_per_mean_witness :
  ∃ per, batch_per [[1; 3]; [1; 0; 0]]%Z [[1; 2; 3]; [1; 0; 0]]%Z = Ok per
    ∧ (per == mean_error_rate [[1; 3]; [1; 0; 0]]%Z [[1; 2; 3]; [1; 0; 0]]%Z)%Q
    ∧ (Forall2 (λ hyp ref, strip_padding hyp = strip_padding ref)
         [[1; 3]; [1; 0; 0]]%Z [[1; 2; 3]; [1; 0; 0]]%Z → (per == 0)%Q)
    ∧ batch_per [[1; 3]]%Z [[1; 2; 3]]%Z = Ok (1 # 3)%Q.
Proof.
  apply batch_per_mean; [done | reflexivity |].
  repeat constructor; exists 1%Z; (split; [apply list_elem_of_here | lia]).
Defined.

(** C1, the empty batch: both batches have length 0 and every reference
    (there is none) holds a non-zero entry, yet no mean is returned. *)
Lemma batch_per_empty_batch :
  length (@nil (list Z)) = length (@nil (list Z))
  ∧ Forall (λ ref : list Z, ∃ phn, phn ∈ ref ∧ phn ≠ 0%Z) []
  ∧ batch_per [] [] = Raise ZeroDivisionError
  ∧ ¬ ∃ per, batch_per [] [] = Ok per.
Proof.
  split; [done|]. split; [constructor|]. split; [reflexivity|].
  intros [per [=]].
Qed.

(** C8: when a reference paired with a hypothesis (position [i] of [refs],
    with [i] below the number of hypotheses) holds only the padding value
    0, [batch_per] raises the division-by-zero error and returns no
    number. *)
Theorem batch_per_zero_reference (hyps refs : list (list Z)) (i : nat)
    (ref : list Z) :
  i < length hyps →
  refs !! i = Some ref →
  Forall (λ phn, phn = 0%Z) ref →
  batch_per hyps refs = Raise ZeroDivisionError
  ∧ ¬ ∃ per, batch_per hyps refs = Ok per.
Proof.
  intros Hi Href Hzero.
  assert (batch_per hyps refs = Raise ZeroDivisionError) as ->.
  { unfold batch_per.
    rewrite (batch_per_loop_zero_reference hyps refs _ 0 _ i ref);
      [done | lia | done.. | by apply strip_padding_all_zero]. }
  split; [done|]. intros [per [=]].
Qed.

Lemma batch_per_zero_reference_witness :
  batch_per [[1; 2]; [3; 0]; [4; 4]]%Z [[1; 2]; [0; 0]; [4; 0]]%Z
    = Raise ZeroDivisionError
  ∧ ¬ ∃ per, batch_per [[1; 2]; [3; 0]; [4; 4]]%Z
               [[1; 2]; [0; 0]; [4; 0]]%Z = Ok per.
Proof.
  apply (batch_per_zero_reference _ _ 1 [0; 0]%Z);
    [simpl; lia | reflexivity | by repeat constructor].
Defined.


(** ** Blocks of a row-major array *)

Section blocks.
Context {A : Type}.
Implicit Types d : list A.

Lemma length_chunk k i d : (i + 1) * k ≤ length d → length (chunk k i d) = k.
Proof. intros. unfold chunk. rewrite length_take, length_drop. lia. Qed.

Lemma chunks_take k n d : seq 0 n ≫= (λ i, chunk k i d) = take (n * k) d.
Proof.
  induction n as [|n IH]; [done|].
  rewrite seq_S, bind_app, IH, bind_singleton. unfold chunk. simpl.
  rewrite take_take_drop. f_equal. lia.
Qed.

Lemma chunks_all k n d : length d = n * k → seq 0 n ≫= (λ i, chunk k i d) = d.
Proof. intros. rewrite chunks_take. apply take_ge. lia. Qed.

Lemma chunk_bind_seq k (f : nat → list A) s n b :
  (∀ i, i < n → length (f (s + i)) = k) → b < n →
  chunk k b (seq s n ≫= f) = f (s + b).
Proof.
  revert s b. induction n as [|n IH]; intros s b Hlen Hb; [lia|].
  cbn [seq]. rewrite bind_cons. unfold chunk. destruct b as [|b].
  - simpl. rewrite Nat.add_0_r. apply take_app_length'.
    rewrite <-(Nat.add_0_r s) at 1. symmetry. apply Hlen. lia.
  - replace (S b * k) with (k + b * k) by lia.
    rewrite drop_app_add'.
    2:{ rewrite <-(Nat.add_0_r s) at 1. symmetry. apply Hlen. lia. }
    replace (s + S b) with (S s + b) by lia.
    apply (IH (S s) b); [|lia].
    intros i Hi. replace (S s + i) with (s + S i) by lia. apply Hlen. lia.
Qed.

Lemma length_bind_seq k (f : nat → list A) s n :
  (∀ i, i < n → length (f (s + i)) = k) → length (seq s n ≫= f) = n * k.
Proof.
  revert s. induction n as [|n IH]; intros s Hlen; [done|].
  cbn [seq]. rewrite bind_cons, length_app, (IH (S s)).
  - rewrite <-(Nat.add_0_r s) at 1. rewrite Hlen; lia.
  - intros i Hi. replace (S s + i) with (s + S i) by lia. apply Hlen. lia.
Qed.

Lemma bind_seq_ext {B} (f g : nat → list B) s n :
  (∀ i, i < n → f (s + i) = g (s + i)) → seq s n ≫= f = seq s n ≫= g.
Proof.
  intros H. apply Forall_bind_ext, Forall_seq. intros j Hj.
  replace j with (s + (j - s)) by lia. apply H. lia.
Qed.

Lemma bind_seq_grid {B} (g : nat → list B) n0 n1 :
  seq 0 n0 ≫= (λ i, seq 0 n1 ≫= λ j, g (i * n1 + j)) = seq 0 (n0 * n1) ≫= g.
Proof.
  induction n0 as [|n0 IH]; [done|].
  rewrite seq_S, bind_app, IH, bind_singleton. simpl.
  replace (n1 + n0 * n1) with (n0 * n1 + n1) by lia.
  rewrite seq_app, bind_app. f_equal. simpl.
  assert (seq (n0 * n1) n1 = Nat.add (n0 * n1) <$> seq 0 n1) as ->
    by (rewrite fmap_add_seq; f_equal; lia).
  by rewrite list_fmap_bind.
Qed.
End blocks.

(** ** Array operations *)

Section numpy_facts.
Context {A : Type}.
Implicit Types (a : ndarray A) (d : list A) (sh : list nat).

Lemma join_fmap_bind {B C} (f : B → list C) (l : list B) :
  mjoin (f <$> l) = l ≫= f.
Proof. by rewrite list_join_bind, list_fmap_bind. Qed.

Lemma size_of_cons n sh : size_of (n :: sh) = n * size_of sh.
Proof. done. Qed.

Lemma ndarray_eta a : NdArray (shape a) (data a) = a.
Proof. by destruct a. Qed.

(** Broadcasting to the array's own shape leaves the elements as they are. *)
Lemma broadcast_data_same sh d :
  length d = size_of sh → broadcast_data sh sh d = Ok d.
Proof.
  revert d. induction sh as [|s sh IH]; intros d Hd; [done|].
  cbn [broadcast_data]. rewrite decide_True by done.
  rewrite size_of_cons in Hd.
  rewrite (mapM_Ok_fmap _ (λ i, chunk (size_of sh) i d)).
  - cbn [mbind result_bind]. by rewrite join_fmap_bind, chunks_all.
  - apply Forall_seq. intros j Hj. apply IH, length_chunk. nia.
Qed.

Lemma strip_leading_ones_0 sh : strip_leading_ones 0 sh = sh.
Proof. by destruct sh. Qed.

Lemma np_broadcast_to_same a : wf a → np_broadcast_to a (shape a) = Ok (data a).
Proof.
  intros Hwf. unfold np_broadcast_to.
  rewrite Nat.sub_diag, strip_leading_ones_0, Nat.sub_diag. simpl.
  by apply broadcast_data_same.
Qed.

Lemma np_broadcast_to_shape a sh :
  wf a → shape a = sh → np_broadcast_to a sh = Ok (data a).
Proof. intros ? <-. by apply np_broadcast_to_same. Qed.

(** [zero_pad] in closed form. *)
Lemma zero_pad_Ok (zero : A) (to_float64 : A → A) a n trail len :
  shape a = n :: trail → wf a → n ≤ len →
  zero_pad zero to_float64 a len
  = Ok (NdArray (len :: trail) (padded_data zero to_float64 len a)).
Proof.
  intros Hsh Hwf Hle. unfold zero_pad, shape0, padded_data, first_dim.
  rewrite Hsh. cbn [mbind result_bind tail head default].
  rewrite decide_True by done.
  unfold np_set_prefix, np_zeros. cbn [shape data].
  rewrite Nat.min_l by done.
  rewrite (np_broadcast_to_shape a (n :: trail)) by done.
  cbn [mbind result_bind]. rewrite drop_replicate, size_of_cons.
  unfold id. by rewrite Nat.mul_sub_distr_r.
Qed.

Lemma wf_padded (zero : A) (to_float64 : A → A) a n trail len :
  shape a = n :: trail → wf a → n ≤ len →
  length (padded_data zero to_float64 len a) = len * size_of trail.
Proof.
  intros Hsh Hwf Hle. unfold padded_data, first_dim. rewrite Hsh.
  rewrite length_app, length_replicate, length_fmap. unfold wf in Hwf.
  rewrite Hwf, Hsh, size_of_cons. simpl. nia.
Qed.

Lemma np_astype_float64 (to_float64 : A → A) a :
  is_float64 to_float64 a → np_astype to_float64 a = a.
Proof.
  unfold is_float64, np_astype. destruct a as [sh d]. cbn [shape data].
  intros Hd. f_equal. induction Hd as [|x d Hx _ IH]; [done|].
  csimpl. by rewrite Hx, IH.
Qed.

Lemma chunk_app_l k i d d' :
  (i + 1) * k ≤ length d → chunk k i (d ++ d') = chunk k i d.
Proof.
  intros. unfold chunk. rewrite drop_app_le by lia.
  apply take_app_le. rewrite length_drop. lia.
Qed.

Lemma chunk_app_replicate k i n d (x : A) m :
  length d = n * k → n ≤ i < m →
  chunk k i (d ++ replicate ((m - n) * k) x) = replicate k x.
Proof.
  intros Hd Hi. unfold chunk. rewrite drop_app_ge by nia.
  rewrite drop_replicate, take_replicate. f_equal. nia.
Qed.

(** What [zero_pad] returns for any element type: the input converted to
    float64, followed by zero rows. *)
Lemma zero_pad_converts (zero : A) (to_float64 : A → A) (matrix : ndarray A)
    (n to_length : nat) (trail : list nat) :
  shape matrix = n :: trail → wf matrix → n ≤ to_length →
  ∃ result, zero_pad zero to_float64 matrix to_length = Ok result
    ∧ shape result = to_length :: trail
    ∧ wf result
    ∧ (∀ i, i < n →
         np_row result i = np_row (np_astype to_float64 matrix) i)
    ∧ (∀ i, n ≤ i < to_length → np_row result i = np_zeros zero trail)
    ∧ np_prefix result n = Ok (np_astype to_float64 matrix)
    ∧ (n = to_length → result = np_astype to_float64 matrix).
Proof.
  intros Hsh Hwf Hle. eexists. split; [by eapply zero_pad_Ok|].
  assert (Hd : length (to_float64 <$> data matrix) = n * size_of trail).
  { unfold wf in Hwf. by rewrite length_fmap, Hwf, Hsh. }
  unfold padded_data, first_dim, np_astype. rewrite Hsh.
  cbn [head default tail]. unfold id. repeat split.
  - unfold wf. cbn [shape data]. rewrite length_app, length_replicate, Hd.
    rewrite size_of_cons. nia.
  - intros i Hi. unfold np_row. cbn [shape data tail].
    f_equal. apply chunk_app_l. nia.
  - intros i Hi. unfold np_row, np_zeros. cbn [shape data tail]. f_equal.
    by apply (chunk_app_replicate _ _ n).
  - unfold np_prefix. cbn [shape data]. rewrite Nat.min_l by done.
    by rewrite take_app_length' by done.
  - intros <-. rewrite Nat.sub_diag. simpl. by rewrite app_nil_r.
Qed.

(** C4: for a float64 array of first-axis length [n] at most the target
    length, [zero_pad] returns an array of first-axis length [to_length]
    whose first [n] rows are the input's and whose other rows are zero;
    slicing it back to [n] rows gives the input, and it is the input when
    [n = to_length]. *)
Theorem zero_pad_pads_at_end (zero : A) (to_float64 : A → A)
    (matrix : ndarray A) (n to_length : nat) (trail : list nat) :
  shape matrix = n :: trail → wf matrix → n ≤ to_length →
  is_float64 to_float64 matrix →
  ∃ result, zero_pad zero to_float64 matrix to_length = Ok result
    ∧ shape result = to_length :: trail
    ∧ wf result
    ∧ (∀ i, i < n → np_row result i = np_row matrix i)
    ∧ (∀ i, n ≤ i < to_length → np_row result i = np_zeros zero trail)
    ∧ np_prefix result n = Ok matrix
    ∧ (n = to_length → result = matrix).
Proof.
  intros Hsh Hwf Hle Hfloat.
  destruct (zero_pad_converts zero to_float64 matrix n to_length trail)
    as (result & Hpad & Hshape & Hwfr & Hrows & Hzeros & Hprefix & Hsame);
    [done..|].
  rewrite (np_astype_float64 to_float64 matrix Hfloat) in Hrows, Hprefix, Hsame.
  by exists result.
Qed.

(** ** [collapse] *)

Lemma grid_block_bound n0 n1 k i j :
  i < n0 → j < n1 → (i * n1 + j + 1) * k ≤ n0 * n1 * k.
Proof. intros. apply Nat.mul_le_mono_r. nia. Qed.

Lemma swap_blocks_chunk n0 n1 k d j :
  length d = n0 * n1 * k → j < n1 →
  chunk (n0 * k) j (swap_blocks n0 n1 k d)
  = seq 0 n0 ≫= λ i, chunk k (i * n1 + j) d.
Proof.
  intros Hd Hj. unfold swap_blocks.
  rewrite (chunk_bind_seq (n0 * k) _ 0 n1 j); [done| |done].
  intros j' Hj'. apply length_bind_seq. intros i Hi.
  apply length_chunk. rewrite Hd. by apply grid_block_bound.
Qed.

Lemma length_swap_blocks n0 n1 k d :
  length d = n0 * n1 * k → length (swap_blocks n0 n1 k d) = n0 * n1 * k.
Proof.
  intros Hd. unfold swap_blocks.
  rewrite (length_bind_seq (n0 * k)); [lia|].
  intros j Hj. apply length_bind_seq. intros i Hi. apply length_chunk.
  rewrite Hd. by apply grid_block_bound.
Qed.

Lemma np_concatenate_axis1_same (arrays : list (ndarray A)) n0 n2 rest :
  arrays ≠ [] → Forall (λ a, shape a = n0 :: n2 :: rest) arrays →
  np_concatenate_axis1 arrays
  = Ok (NdArray (n0 :: length arrays * n2 :: rest)
          (seq 0 n0 ≫= λ i, arrays ≫= λ a,
             chunk (n2 * size_of rest) i (data a))).
Proof.
  intros Hne Hsh. destruct arrays as [|first arrays']; [done|].
  remember (first :: arrays') as arrays eqn:Harrays.
  unfold np_concatenate_axis1. rewrite Harrays at 1. cbv beta iota.
  assert (Hfirst : shape first = n0 :: n2 :: rest).
  { rewrite Harrays in Hsh. by apply Forall_inv in Hsh. }
  rewrite Hfirst. rewrite decide_True.
  2:{ eapply Forall_impl; [exact Hsh|]. intros a Ha.
      unfold joins_on_axis1. by rewrite Ha. }
  do 2 f_equal.
  - do 2 f_equal. apply sum_list_fmap_same.
    eapply Forall_impl; [exact Hsh|]. intros a Ha. unfold shape1. by rewrite Ha.
  - apply bind_seq_ext. intros i _. apply Forall_bind_ext.
    eapply Forall_impl; [exact Hsh|]. intros a Ha. unfold shape1. by rewrite Ha.
Qed.

Lemma np_concatenate_axis1_rows n0 n1 n2 rest (g : nat → list A) :
  1 ≤ n1 →
  np_concatenate_axis1 ((λ j, NdArray (n0 :: n2 :: rest) (g j)) <$> seq 0 n1)
  = Ok (NdArray (n0 :: n1 * n2 :: rest)
          (seq 0 n0 ≫= λ i, seq 0 n1 ≫= λ j,
             chunk (n2 * size_of rest) i (g j))).
Proof.
  intros Hn1.
  rewrite (np_concatenate_axis1_same _ n0 n2 rest).
  - rewrite length_fmap, length_seq. do 2 f_equal.
    apply bind_seq_ext. intros i _. by rewrite list_fmap_bind.
  - destruct n1; [lia|done].
  - apply Forall_fmap, Forall_forall. by intros j _.
Qed.

(** One batch element: the exchange of the first two axes followed by the
    concatenation along axis 1 leaves the row-major elements in place. *)
Lemma collapse_utterance_Ok a n0 n1 n2 rest :
  shape a = n0 :: n1 :: n2 :: rest → wf a → 1 ≤ n1 →
  collapse_utterance a = Ok (NdArray (n0 :: n1 * n2 :: rest) (data a)).
Proof.
  intros Hsh Hwf Hn1. unfold wf in Hwf. rewrite Hsh, !size_of_cons in Hwf.
  assert (Hd : length (data a) = n0 * n1 * (n2 * size_of rest)) by lia.
  unfold collapse_utterance, np_swapaxes01. rewrite Hsh.
  cbn [mbind result_bind]. unfold np_iter. cbn [shape mbind result_bind].
  unfold np_row. cbn [shape data tail].
  rewrite np_concatenate_axis1_rows by done. do 2 f_equal.
  rewrite !size_of_cons.
  rewrite (bind_seq_ext _ (λ i, seq 0 n1 ≫= λ j,
             chunk (n2 * size_of rest) (i * n1 + j) (data a))).
  - rewrite (bind_seq_grid (λ m, chunk (n2 * size_of rest) m (data a))).
    by apply chunks_all.
  - intros i Hi. apply bind_seq_ext. intros j Hj. simpl.
    rewrite swap_blocks_chunk by done.
    rewrite (chunk_bind_seq (n2 * size_of rest) _ 0 n0 i); [done| |done].
    intros i' Hi'. apply length_chunk. rewrite Hd. simpl.
    by apply grid_block_bound.
Qed.

Lemma np_array_same (arrays : list (ndarray A)) sh :
  arrays ≠ [] → Forall (λ a, shape a = sh) arrays →
  np_array arrays = Ok (NdArray (length arrays :: sh) (arrays ≫= data)).
Proof.
  intros Hne Hsh. destruct arrays as [|first arrays']; [done|].
  remember (first :: arrays') as arrays eqn:Harrays.
  unfold np_array. rewrite Harrays at 1. cbv beta iota.
  assert (Hfirst : shape first = sh).
  { rewrite Harrays in Hsh. by apply Forall_inv in Hsh. }
  by rewrite Hfirst, decide_True.
Qed.

Lemma np_iter_Ok a n rest :
  shape a = n :: rest →
  np_iter a = Ok ((λ i, NdArray rest (chunk (size_of rest) i (data a)))
                    <$> seq 0 n).
Proof. intros Hsh. unfold np_iter, np_row. by rewrite Hsh. Qed.

(** The batch before the optional transposition: the shape loses an axis,
    the row-major elements stay. *)
Lemma collapse_batch_major a n n0 n1 n2 rest :
  shape a = n :: n0 :: n1 :: n2 :: rest → wf a → 1 ≤ n → 1 ≤ n1 →
  collapse a false = Ok (NdArray (n :: n0 :: n1 * n2 :: rest) (data a)).
Proof.
  intros Hsh Hwf Hn Hn1. unfold wf in Hwf. rewrite Hsh, size_of_cons in Hwf.
  unfold collapse. rewrite (np_iter_Ok a n _ Hsh). cbn [mbind result_bind].
  rewrite (mapM_Ok_fmap_fmap _ _ (λ i, NdArray (n0 :: n1 * n2 :: rest)
             (chunk (size_of (n0 :: n1 :: n2 :: rest)) i (data a)))).
  2:{ apply Forall_seq. intros i Hi.
      rewrite (collapse_utterance_Ok _ n0 n1 n2 rest); [done..| |done].
      unfold wf. cbn [shape data]. apply length_chunk. nia. }
  cbn [mbind result_bind].
  rewrite (np_array_same _ (n0 :: n1 * n2 :: rest)).
  - cbn [mbind result_bind]. rewrite length_fmap, length_seq.
    rewrite list_fmap_bind. do 2 f_equal. by apply chunks_all.
  - destruct n; [lia|done].
  - apply Forall_fmap, Forall_forall. by intros i _.
Qed.

Lemma collapse_transposes_last a time_major :
  collapse a time_major
  = new_batch_x ← collapse a false;
    if time_major then np_transpose102 new_batch_x else Ok new_batch_x.
Proof.
  unfold collapse. destruct (np_iter a) as [utterances|]; [|done].
  cbn [mbind result_bind].
  destruct (mapM collapse_utterance utterances) as [new|]; [|done].
  cbn [mbind result_bind]. destruct (np_array new); [|done].
  by destruct time_major.
Qed.

Lemma collapse_time_major a n n0 n1 n2 :
  shape a = [n; n0; n1; n2] → wf a → 1 ≤ n → 1 ≤ n1 →
  collapse a true
  = Ok (NdArray [n0; n; n1 * n2] (swap_blocks n n0 (n1 * n2) (data a))).
Proof.
  intros Hsh Hwf Hn Hn1.
  rewrite collapse_transposes_last.
  by rewrite (collapse_batch_major a n n0 n1 n2 [] Hsh Hwf Hn Hn1).
Qed.

Lemma offset_collapse N T C F n t c f :
  offset [N; T; C * F] [n; t; c * F + f] 0 = offset [N; T; C; F] [n; t; c; f] 0.
Proof. simpl. lia. Qed.

Lemma offset_bound N T C F n t c f :
  n < N → t < T → c < C → f < F →
  offset [N; T; C; F] [n; t; c; f] 0 < N * (T * (C * (F * 1))).
Proof.
  intros. simpl.
  assert (n * T + t < N * T) by nia.
  assert ((n * T + t) * C + c < N * T * C) by nia.
  assert (((n * T + t) * C + c) * F + f < N * T * C * F) by nia.
  lia.
Qed.

(** C5 (as amended): for a batch of shape (N, T, C, F) with at least one
    element and at least one channel, [collapse] without the time-major
    flag returns an array of shape (N, T, C*F) in which, for every element
    and time step, the C channel slices follow one another along the last
    axis: entry [c*F + f] is entry [f] of channel [c]. *)
Theorem collapse_channels (batch_x : ndarray A) (N T C F : nat) :
  shape batch_x = [N; T; C; F] → wf batch_x → 1 ≤ N → 1 ≤ C →
  ∃ new_batch_x, collapse batch_x false = Ok new_batch_x
    ∧ shape new_batch_x = [N; T; C * F]
    ∧ ∀ n t c f, n < N → t < T → c < C → f < F →
        is_Some (np_get batch_x [n; t; c; f])
        ∧ np_get new_batch_x [n; t; c * F + f] = np_get batch_x [n; t; c; f].
Proof.
  intros Hsh Hwf HN HC. eexists.
  split; [by apply (collapse_batch_major _ N T C F [])|].
  split; [done|]. intros n t c f Hn Ht Hc Hf.
  unfold np_get. cbn [shape data]. rewrite Hsh. split.
  - apply lookup_lt_is_Some_2. unfold wf in Hwf. rewrite Hwf, Hsh.
    by apply offset_bound.
  - by rewrite offset_collapse.
Qed.
End numpy_facts.

Lemma collapse_channels_witness :
  ∃ new_batch_x,
    collapse (NdArray [1; 2; 2; 1] [1; 2; 3; 4]%Z) false = Ok new_batch_x
    ∧ shape new_batch_x = [1; 2; 2 * 1]
    ∧ ∀ n t c f, n < 1 → t < 2 → c < 2 → f < 1 →
        is_Some (np_get (NdArray [1; 2; 2; 1] [1; 2; 3; 4]%Z) [n; t; c; f])
        ∧ np_get new_batch_x [n; t; c * 1 + f]
          = np_get (NdArray [1; 2; 2; 1] [1; 2; 3; 4]%Z) [n; t; c; f].
Proof.
  apply (collapse_channels (NdArray [1; 2; 2; 1] [1; 2; 3; 4]%Z) 1 2 2 1);
    [reflexivity | reflexivity | lia | lia].
Defined.

(** C5, as stated: a batch of shape (N, C, T, F) = (1, 2, 3, 1).  The
    result has shape (1, 2, 3), not (N, T, C*F) = (1, 3, 2), and its rows
    are those of the input, not the channel slices side by side. *)
Lemma collapse_channel_first_batch :
  let batch_x := NdArray [1; 2; 3; 1] [1; 2; 3; 4; 5; 6]%Z in
  shape batch_x = [1; 2; 3; 1] ∧ wf batch_x
  ∧ collapse batch_x false = Ok (NdArray [1; 2; 3] [1; 2; 3; 4; 5; 6]%Z)
  ∧ ¬ ∃ new_batch_x, collapse batch_x false = Ok new_batch_x
        ∧ shape new_batch_x = [1; 3; 2 * 1].
Proof.
  simpl. split; [done|]. split; [done|]. split; [reflexivity|].
  intros (new_batch_x & H & Hsh). vm_compute in H.
  injection H as <-. discriminate Hsh.
Qed.

Lemma zero_pad_pads_at_end_witness :
  ∃ result,
    zero_pad 0%Z round_to_53_bits (NdArray [2; 2] [1; 2; 3; 4]%Z) 4 = Ok result
    ∧ shape result = [4; 2]
    ∧ wf result
    ∧ (∀ i, i < 2 → np_row result i = np_row (NdArray [2; 2] [1; 2; 3; 4]%Z) i)
    ∧ (∀ i, 2 ≤ i < 4 → np_row result i = np_zeros 0%Z [2])
    ∧ np_prefix result 2 = Ok (NdArray [2; 2] [1; 2; 3; 4]%Z)
    ∧ (2 = 4 → result = NdArray [2; 2] [1; 2; 3; 4]%Z).
Proof.
  apply (zero_pad_pads_at_end 0%Z round_to_53_bits
           (NdArray [2; 2] [1; 2; 3; 4]%Z) 2 4 [2]);
    [reflexivity | reflexivity | lia | repeat constructor].
Defined.

(** An int64 array of one element above 2^53, padded to its own length: the
    element comes back rounded to 53 bits, so neither the slice nor the
    result is the input. *)
Lemma zero_pad_rounds_int64 :
  shape (NdArray [1] [2 ^ 53 + 1]%Z) = [1]
  ∧ wf (NdArray [1] [2 ^ 53 + 1]%Z)
  ∧ zero_pad 0%Z round_to_53_bits (NdArray [1] [2 ^ 53 + 1]%Z) 1
    = Ok (NdArray [1] [2 ^ 53]%Z)
  ∧ np_prefix (NdArray [1] [2 ^ 53]%Z) 1 ≠ Ok (NdArray [1] [2 ^ 53 + 1]%Z)
  ∧ NdArray [1] [2 ^ 53]%Z ≠ NdArray [1] [2 ^ 53 + 1]%Z.
Proof.
  split; [reflexivity|]. split; [reflexivity|].
  split; [by vm_compute|]. split; by vm_compute.
Qed.


(** ** [load_batch_x] *)

Lemma foldl_max_le (xs : list nat) (x0 : nat) :
  x0 ≤ foldl Nat.max x0 xs ∧ ∀ x, x ∈ xs → x ≤ foldl Nat.max x0 xs.
Proof.
  revert x0. induction xs as [|y xs IH]; intros x0; simpl.
  - split; [done|]. by intros x ?%not_elem_of_nil.
  - destruct (IH (x0 `max` y)) as [H0 Hxs]. split; [lia|].
    intros x [->|Hx]%elem_of_cons; [lia|by apply Hxs].
Qed.

Lemma py_max_ge (xs : list nat) (m : nat) :
  py_max xs = Ok m → ∀ x, x ∈ xs → x ≤ m.
Proof.
  destruct xs as [|x0 xs]; [done|]. intros [= <-] x.
  destruct (foldl_max_le xs x0) as [H0 Hxs].
  intros [->|Hx]%elem_of_cons; [done|by apply Hxs].
Qed.

Lemma py_max_nonempty (xs : list nat) :
  xs ≠ [] → ∃ m, py_max xs = Ok m.
Proof. destruct xs; [done|]. by eexists. Qed.

Lemma mapM_Ok_exists {A B} (f : A → result B) (P : A → B → Prop) (l : list A) :
  Forall (λ x, ∃ y, f x = Ok y ∧ P x y) l →
  ∃ k, mapM f l = Ok k ∧ Forall2 P l k.
Proof.
  induction 1 as [|x l (y & Hy & HP) _ (k & Hk & HPk)].
  - by exists [].
  - exists (y :: k). split; [|by constructor].
    cbn [mapM]. by rewrite Hy, Hk.
Qed.

Section load_facts.
Context {A : Type} (zero : A) (to_float64 : A → A).
Implicit Types (a utt batch : ndarray A) (d : list A) (sh trail : list nat).

Lemma shape0_Ok a n trail : shape a = n :: trail → shape0 a = Ok n.
Proof. intros Hsh. unfold shape0. by rewrite Hsh. Qed.

Lemma first_dim_shape a n trail : shape a = n :: trail → first_dim a = n.
Proof. intros Hsh. unfold first_dim. by rewrite Hsh. Qed.

(** The loop writes the padded arrays one after the other. *)
Lemma fill_batch_Ok N L trail (utterances : list (ndarray A)) d i :
  length d = i * (L * size_of trail) →
  i + length utterances ≤ N →
  Forall (λ utt, wf utt ∧ ∃ n, shape utt = n :: trail ∧ n ≤ L) utterances →
  fill_batch zero to_float64
    (NdArray (N :: L :: trail)
       (d ++ replicate ((N - i) * (L * size_of trail)) zero))
    L i utterances
  = Ok (NdArray (N :: L :: trail)
          (d ++ (utterances ≫= padded_data zero to_float64 L)
           ++ replicate ((N - i - length utterances) * (L * size_of trail))
                zero)).
Proof.
  intros Hd Hlen Hutts. revert d i Hd Hlen.
  induction Hutts as [|utt utterances (Hwf & n & Hsh & Hn) _ IH];
    intros d i Hd Hlen.
  - cbn [fill_batch length]. by rewrite Nat.sub_0_r.
  - cbn [fill_batch length] in *.
    rewrite (zero_pad_Ok zero to_float64 utt n trail L) by done.
    cbn [mbind result_bind]. unfold np_set_row. cbn [shape data].
    rewrite decide_True by lia.
    rewrite (np_broadcast_to_shape _ (L :: trail)); [| |done].
    2:{ unfold wf. cbn [shape data]. by apply (wf_padded zero to_float64 utt n). }
    cbn [mbind result_bind data]. rewrite size_of_cons.
    rewrite take_app_length' by done.
    replace ((i + 1) * (L * size_of trail))
      with (i * (L * size_of trail) + L * size_of trail) by lia.
    rewrite drop_app_add' by done. rewrite drop_replicate.
    replace ((N - i) * (L * size_of trail) - L * size_of trail)
      with ((N - S i) * (L * size_of trail)) by nia.
    rewrite (app_assoc d). rewrite IH.
    + rewrite bind_cons, <-!app_assoc.
      by replace (N - S i - length utterances)
        with (N - i - S (length utterances)) by lia.
    + rewrite length_app, (wf_padded zero to_float64 utt n trail L) by done. lia.
    + lia.
Qed.

Lemma length_padded_bind L trail (utterances : list (ndarray A)) :
  Forall (λ utt, wf utt ∧ ∃ n, shape utt = n :: trail ∧ n ≤ L) utterances →
  length (utterances ≫= padded_data zero to_float64 L)
  = length utterances * (L * size_of trail).
Proof.
  induction 1 as [|utt utterances (Hwf & n & Hsh & Hn) _ IH]; [done|].
  rewrite bind_cons, length_app, IH, (wf_padded zero to_float64 utt n trail L) by done.
  simpl. lia.
Qed.

Lemma foldl_max_max_list (xs : list nat) (x0 : nat) :
  foldl Nat.max x0 xs = x0 `max` max_list xs.
Proof.
  revert x0. induction xs as [|y xs IH]; intros x0; simpl; [lia|].
  rewrite IH. lia.
Qed.

Lemma py_max_max_list (xs : list nat) : xs ≠ [] → py_max xs = Ok (max_list xs).
Proof.
  destruct xs as [|x xs]; [done|]. intros _. simpl.
  by rewrite foldl_max_max_list.
Qed.

Lemma load_batch_x_stacked fs path_batch flatten time_major utterances trail :
  mapM (np_load fs) path_batch = Ok utterances →
  utterances ≠ [] →
  Forall (λ utt, wf utt ∧ ∃ n, shape utt = n :: trail) utterances →
  load_batch_x zero to_float64 fs path_batch flatten time_major
  = batch ← (if flatten then collapse (stacked_batch zero to_float64 utterances trail) time_major
             else Ok (stacked_batch zero to_float64 utterances trail));
    Ok (batch, first_dim <$> utterances).
Proof.
  intros Hload Hne Hutts.
  assert (Hlen : length path_batch = length utterances).
  { apply mapM_Ok_Forall2 in Hload. by eapply Forall2_length. }
  unfold load_batch_x. rewrite Hload. cbn [mbind result_bind].
  rewrite (mapM_Ok_fmap shape0 first_dim).
  2:{ eapply Forall_impl; [exact Hutts|]. intros utt (_ & n & Hsh).
      by rewrite (shape0_Ok _ _ _ Hsh), (first_dim_shape _ _ _ Hsh). }
  cbn [mbind result_bind]. rewrite py_max_max_list by by destruct utterances.
  cbn [mbind result_bind].
  set (max_len := max_list (first_dim <$> utterances)).
  assert (Hbound : Forall (λ utt, wf utt ∧ ∃ n, shape utt = n :: trail
                                              ∧ n ≤ max_len) utterances).
  { apply Forall_forall. intros utt Hin.
    destruct (proj1 (Forall_forall _ _) Hutts utt Hin) as (Hwf & n & Hsh).
    split; [done|]. exists n. split; [done|].
    apply max_list_elem_of_le, list_elem_of_fmap. exists utt.
    by rewrite (first_dim_shape _ _ _ Hsh). }
  destruct utterances as [|first utterances'] eqn:Hutterances; [done|].
  unfold py_index. cbn [lookup list_lookup mbind result_bind].
  rewrite <-Hutterances in *.
  assert (Hfirst : tail (shape first) = trail).
  { rewrite Hutterances in Hutts. apply Forall_inv in Hutts.
    destruct Hutts as (_ & n & ->). done. }
  rewrite Hfirst. unfold np_zeros. rewrite !size_of_cons.
  pose proof (fill_batch_Ok (length path_batch) max_len trail utterances
                [] 0) as Hfill.
  rewrite Nat.sub_0_r in Hfill. cbn [app] in Hfill.
  rewrite Hfill; [|done|lia|done].
  cbn [mbind result_bind]. rewrite Hlen, Nat.sub_diag. simpl replicate.
  rewrite app_nil_r. subst utterances. reflexivity.
Qed.

Lemma wf_stacked_batch (utterances : list (ndarray A)) trail :
  Forall (λ utt, wf utt ∧ ∃ n, shape utt = n :: trail) utterances →
  wf (stacked_batch zero to_float64 utterances trail).
Proof.
  intros Hutts. unfold wf, stacked_batch. cbn [shape data].
  rewrite !size_of_cons. apply length_padded_bind.
  apply Forall_forall. intros utt Hin.
  destruct (proj1 (Forall_forall _ _) Hutts utt Hin) as (Hwf & n & Hsh).
  split; [done|]. exists n. split; [done|].
  apply max_list_elem_of_le, list_elem_of_fmap. exists utt.
  by rewrite (first_dim_shape _ _ _ Hsh).
Qed.

Lemma load_all fs (path_batch : list string) trail :
  Forall (λ path, ∃ utt n, fs path = Some utt ∧ wf utt ∧ shape utt = n :: trail)
         path_batch →
  ∃ utterances : list (ndarray A),
    mapM (np_load fs) path_batch = Ok utterances
    ∧ Forall2 (λ path utt, fs path = Some utt) path_batch utterances
    ∧ Forall (λ utt, wf utt ∧ ∃ n, shape utt = n :: trail) utterances.
Proof.
  intros Hfs.
  destruct (mapM_Ok_exists (np_load fs)
              (λ path utt, fs path = Some utt
                           ∧ wf utt ∧ ∃ n, shape utt = n :: trail) path_batch)
    as (utterances & Hload & Hall).
  { eapply Forall_impl; [exact Hfs|]. intros path (utt & n & Hp & Hwf & Hsh).
    exists utt. unfold np_load. rewrite Hp. eauto 6. }
  exists utterances. split; [done|]. split.
  - eapply Forall2_impl; [exact Hall|]. by intros path utt [? _].
  - clear Hload Hfs.
    induction Hall as [|path utt ? ? (_ & ? & ?) _ IH]; by constructor.
Qed.

Lemma load_batch_x_returns fs path_batch flatten time_major utterances trail :
  mapM (np_load fs) path_batch = Ok utterances →
  utterances ≠ [] →
  Forall (λ utt, wf utt ∧ ∃ n, shape utt = n :: trail) utterances →
  flatten = false ∨ (∃ C F, trail = [C; F] ∧ 1 ≤ C) →
  ∃ batch, load_batch_x zero to_float64 fs path_batch flatten time_major
           = Ok (batch, first_dim <$> utterances).
Proof.
  intros Hload Hne Hutts Hcase.
  rewrite (load_batch_x_stacked fs path_batch flatten time_major
             utterances trail) by done.
  destruct flatten; [|by eexists].
  destruct Hcase as [|(C & F & -> & HC)]; [done|].
  pose proof (wf_stacked_batch utterances [C; F] Hutts) as Hwf.
  assert (1 ≤ length utterances) by (destruct utterances; [done|simpl; lia]).
  destruct time_major.
  - erewrite collapse_time_major; [by eexists|done..].
  - erewrite (collapse_batch_major _ _ _ _ _ []); [by eexists|done..].
Qed.

(** C3: for a non-empty list of paths to arrays that share their trailing
    dimensions, the lengths [load_batch_x] returns have one entry per path,
    in the order of the paths, entry [i] being the first-axis length of the
    array at path [i].  The call returns without [flatten], and with it
    when the arrays have two trailing dimensions, the first at least 1. *)
Theorem load_batch_x_lengths (fs : string → option (ndarray A))
    (path_batch : list string) (flatten time_major : bool)
    (trail : list nat) :
  path_batch ≠ [] →
  Forall (λ path, ∃ utt n, fs path = Some utt ∧ wf utt ∧ shape utt = n :: trail)
         path_batch →
  ∃ utter_lens : list nat,
    length utter_lens = length path_batch
    ∧ (∀ i path, path_batch !! i = Some path →
         ∃ utt, fs path = Some utt ∧ utter_lens !! i = head (shape utt))
    ∧ (∀ batch lens,
         load_batch_x zero to_float64 fs path_batch flatten time_major = Ok (batch, lens) →
         lens = utter_lens)
    ∧ (flatten = false ∨ (∃ C F, trail = [C; F] ∧ 1 ≤ C) →
       ∃ batch, load_batch_x zero to_float64 fs path_batch flatten time_major
                = Ok (batch, utter_lens)).
Proof.
  intros Hne Hfs.
  destruct (load_all fs path_batch trail Hfs) as (utterances & Hload & Hfs2 & Hutts).
  assert (Hlen : length path_batch = length utterances)
    by by eapply Forall2_length.
  assert (Hne' : utterances ≠ []).
  { destruct utterances; [|done]. by destruct path_batch. }
  exists (first_dim <$> utterances). repeat split.
  - by rewrite length_fmap.
  - intros i path Hi.
    destruct (Forall2_lookup_l _ _ _ _ _ Hfs2 Hi) as (utt & Hutt & Hp).
    exists utt. split; [done|]. rewrite list_lookup_fmap, Hutt. simpl.
    destruct (proj1 (Forall_lookup _ _) Hutts i utt Hutt) as (_ & n & Hsh).
    by rewrite (first_dim_shape _ _ _ Hsh), Hsh.
  - intros batch lens.
    rewrite (load_batch_x_stacked fs path_batch flatten time_major
               utterances trail) by done.
    intros (b & _ & [= _ <-])%bind_Ok. done.
  - by apply load_batch_x_returns.
Qed.

(** With [flatten], arrays of shape (T, C, F) come back time-major when the
    flag asks for it: the first axis is the maximum length, the second the
    batch size. *)
Lemma load_batch_x_time_major_flattened fs path_batch utterances C F :
  mapM (np_load fs) path_batch = Ok utterances →
  utterances ≠ [] →
  Forall (λ utt, wf utt ∧ ∃ n, shape utt = [n; C; F]) utterances →
  1 ≤ C →
  ∃ batch, load_batch_x zero to_float64 fs path_batch true true
           = Ok (batch, first_dim <$> utterances)
    ∧ shape batch
      = [max_list (first_dim <$> utterances); length path_batch; C * F].
Proof.
  intros Hload Hne Hutts HC.
  assert (Hlen : length path_batch = length utterances).
  { apply mapM_Ok_Forall2 in Hload. by eapply Forall2_length. }
  rewrite (load_batch_x_stacked fs path_batch true true utterances [C; F])
    by done.
  pose proof (wf_stacked_batch utterances [C; F] Hutts) as Hwf.
  assert (1 ≤ length utterances) by (destruct utterances; [done|simpl; lia]).
  erewrite collapse_time_major; [|done..].
  eexists. split; [done|]. cbn [shape]. by rewrite Hlen.
Qed.

(** *** No call fails the assertion of [zero_pad] *)

Lemma no_assertion_error_bind {X Y} (m : result X) (f : X → result Y) :
  no_assertion_error m →
  (∀ x, m = Ok x → no_assertion_error (f x)) →
  no_assertion_error (m ≫= f).
Proof.
  destruct m as [x|e]; cbn [mbind result_bind]; intros Hm Hf;
    [by apply Hf | intros [= ->]; by apply Hm].
Qed.

Lemma no_assertion_error_mapM {X Y} (f : X → result Y) (l : list X) :
  Forall (λ x, no_assertion_error (f x)) l → no_assertion_error (mapM f l).
Proof.
  induction 1 as [|x l Hx _ IH]; [done|]. cbn [mapM].
  apply no_assertion_error_bind; [done|]. intros y _.
  apply no_assertion_error_bind; [done|]. by intros k _.
Qed.

Lemma broadcast_data_no_assertion_error sh sh' d :
  no_assertion_error (broadcast_data sh sh' d).
Proof.
  revert sh' d. induction sh as [|s sh IH]; intros [|t sh'] d; try done.
  cbn [broadcast_data]. repeat case_decide; [| |done].
  - apply no_assertion_error_bind; [|by intros].
    apply no_assertion_error_mapM, Forall_forall. intros i _. apply IH.
  - apply no_assertion_error_bind; [apply IH|by intros].
Qed.

Lemma np_set_row_no_assertion_error batch i a :
  no_assertion_error (np_set_row batch i a).
Proof.
  unfold np_set_row. destruct (shape batch); [done|].
  case_decide; [|done]. apply no_assertion_error_bind; [|by intros].
  apply broadcast_data_no_assertion_error.
Qed.

Lemma np_set_prefix_no_assertion_error batch n a :
  no_assertion_error (np_set_prefix to_float64 batch n a).
Proof.
  unfold np_set_prefix. destruct (shape batch); [done|].
  apply no_assertion_error_bind; [|by intros].
  apply broadcast_data_no_assertion_error.
Qed.

Lemma collapse_no_assertion_error batch time_major :
  no_assertion_error (collapse batch time_major).
Proof.
  unfold collapse.
  apply no_assertion_error_bind.
  { unfold np_iter. by destruct (shape batch). }
  intros utterances _. apply no_assertion_error_bind.
  { apply no_assertion_error_mapM, Forall_forall. intros utt _.
    unfold collapse_utterance. apply no_assertion_error_bind.
    { unfold np_swapaxes01. by destruct (shape utt) as [|? [|? ?]]. }
    intros swapped _. apply no_assertion_error_bind.
    { unfold np_iter. by destruct (shape swapped). }
    intros arrays _. unfold np_concatenate_axis1.
    destruct arrays as [|first arrays']; [done|].
    destruct (shape first) as [|? [|? ?]]; [done..|]. by case_decide. }
  intros new_batch_x _. apply no_assertion_error_bind.
  { unfold np_array. destruct new_batch_x; [done|]. by case_decide. }
  intros new _. destruct time_major; [|done].
  unfold np_transpose102. by destruct (shape new) as [|? [|? [|? [|? ?]]]].
Qed.

Lemma zero_pad_no_assertion_error utt max_len :
  (∀ n, shape0 utt = Ok n → n ≤ max_len) →
  no_assertion_error (zero_pad zero to_float64 utt max_len).
Proof.
  intros Hle. unfold zero_pad.
  apply no_assertion_error_bind.
  { unfold shape0. by destruct (shape utt). }
  intros n Hn. rewrite decide_True by by apply Hle.
  apply np_set_prefix_no_assertion_error.
Qed.

Lemma fill_batch_no_assertion_error batch max_len i
    (utterances : list (ndarray A)) :
  Forall (λ utt, ∀ n, shape0 utt = Ok n → n ≤ max_len) utterances →
  no_assertion_error (fill_batch zero to_float64 batch max_len i utterances).
Proof.
  intros Hutts. revert batch i.
  induction Hutts as [|utt utterances Hutt _ IH]; intros batch i; [done|].
  cbn [fill_batch]. apply no_assertion_error_bind.
  { by apply zero_pad_no_assertion_error. }
  intros padded _. apply no_assertion_error_bind.
  { apply np_set_row_no_assertion_error. }
  intros batch' _. apply IH.
Qed.

(** Every first-axis length is at most the maximum [load_batch_x] pads to. *)
Lemma utter_lens_le_max (utterances : list (ndarray A)) utter_lens max_len :
  mapM shape0 utterances = Ok utter_lens →
  py_max utter_lens = Ok max_len →
  Forall (λ utt, ∃ n, shape0 utt = Ok n ∧ n ≤ max_len) utterances.
Proof.
  intros Hlens%mapM_Ok_Forall2 Hmax.
  apply Forall_forall. intros utt Hutt.
  apply list_elem_of_lookup in Hutt as [i Hi].
  destruct (Forall2_lookup_l _ _ _ _ _ Hlens Hi) as (n & Hn & Hsh).
  exists n. split; [done|]. apply (py_max_ge _ _ Hmax).
  by apply list_elem_of_lookup_2 in Hn.
Qed.

Lemma load_batch_x_no_assertion_error fs path_batch flatten time_major :
  no_assertion_error (load_batch_x zero to_float64 fs path_batch flatten time_major).
Proof.
  unfold load_batch_x. apply no_assertion_error_bind.
  { apply no_assertion_error_mapM, Forall_forall. intros path _.
    unfold np_load. by destruct (fs path). }
  intros utterances _. apply no_assertion_error_bind.
  { apply no_assertion_error_mapM, Forall_forall. intros utt _.
    unfold shape0. by destruct (shape utt). }
  intros utter_lens Hlens. apply no_assertion_error_bind.
  { by destruct utter_lens. }
  intros max_len Hmax. apply no_assertion_error_bind.
  { unfold py_index. by destruct (utterances !! 0). }
  intros first _. apply no_assertion_error_bind.
  { apply fill_batch_no_assertion_error.
    eapply Forall_impl; [by eapply utter_lens_le_max|].
    intros utt (n & Hn & Hle) n'. rewrite Hn. by intros [= <-]. }
  intros batch _. apply no_assertion_error_bind; [|by intros].
  destruct flatten; [apply collapse_no_assertion_error|done].
Qed.

(** C10: the target length [load_batch_x] passes to [zero_pad] is the
    maximum of the first-axis lengths, so the assertion of [zero_pad] holds
    at each of its calls, and [load_batch_x] never fails it. *)
Theorem zero_pad_assertion_holds (fs : string → option (ndarray A))
    (path_batch : list string) (flatten time_major : bool)
    (utterances : list (ndarray A)) (utter_lens : list nat) :
  path_batch ≠ [] →
  mapM (np_load fs) path_batch = Ok utterances →
  mapM shape0 utterances = Ok utter_lens →
  ∃ max_len, py_max utter_lens = Ok max_len
    ∧ Forall (λ utt, ∃ n, shape0 utt = Ok n ∧ n ≤ max_len
                     ∧ no_assertion_error (zero_pad zero to_float64 utt max_len))
             utterances
    ∧ no_assertion_error
        (load_batch_x zero to_float64 fs path_batch flatten time_major).
Proof.
  intros Hne Hload Hlens.
  destruct (py_max_nonempty utter_lens) as [max_len Hmax].
  { apply mapM_Ok_Forall2, Forall2_length in Hload, Hlens.
    destruct utter_lens; [|done]. destruct utterances; [|done].
    by destruct path_batch. }
  exists max_len. split; [done|]. split.
  - eapply Forall_impl; [by eapply utter_lens_le_max|].
    intros utt (n & Hn & Hle). exists n. split; [done|]. split; [done|].
    apply zero_pad_no_assertion_error. intros n'. rewrite Hn.
    by intros [= <-].
  - apply load_batch_x_no_assertion_error.
Qed.
End load_facts.

Lemma load_batch_x_lengths_witness :
  ∃ utter_lens : list nat,
    length utter_lens = length ["a.npy"; "b.npy"]
    ∧ (∀ i path, ["a.npy"; "b.npy"] !! i = Some path →
         ∃ utt, example_files path = Some utt
                ∧ utter_lens !! i = head (shape utt))
    ∧ (∀ batch lens,
         load_batch_x 0%Z round_to_53_bits example_files ["a.npy"; "b.npy"] true false
           = Ok (batch, lens) →
         lens = utter_lens)
    ∧ (true = false ∨ (∃ C F, [1; 2] = [C; F] ∧ 1 ≤ C) →
       ∃ batch, load_batch_x 0%Z round_to_53_bits example_files ["a.npy"; "b.npy"] true false
                = Ok (batch, utter_lens)).
Proof.
  apply (load_batch_x_lengths 0%Z round_to_53_bits example_files ["a.npy"; "b.npy"] true false
           [1; 2]); [done|].
  repeat constructor.
  - by exists (NdArray [2; 1; 2] [1; 2; 3; 4]%Z), 2.
  - by exists (NdArray [3; 1; 2] [5; 6; 7; 8; 9; 10]%Z), 3.
Defined.

Lemma zero_pad_assertion_holds_witness :
  ∃ max_len, py_max [2; 3] = Ok max_len
    ∧ Forall (λ utt, ∃ n, shape0 utt = Ok n ∧ n ≤ max_len
                     ∧ no_assertion_error (zero_pad 0%Z round_to_53_bits utt max_len))
             [NdArray [2; 1; 2] [1; 2; 3; 4]%Z;
              NdArray [3; 1; 2] [5; 6; 7; 8; 9; 10]%Z]
    ∧ no_assertion_error
        (load_batch_x 0%Z round_to_53_bits example_files ["a.npy"; "b.npy"] false false).
Proof.
  apply (zero_pad_assertion_holds 0%Z round_to_53_bits example_files ["a.npy"; "b.npy"]);
    [done | reflexivity | reflexivity].
Defined.

(** C6: with the time-major flag and without [flatten] the flag is not
    looked at: the batch of the two example files (N = 2, L = 3) comes back
    batch-major, as without the flag; with [flatten] it is time-major. *)
Theorem load_batch_x_time_major_unflattened :
  (∀ (A : Type) (zero : A) (to_float64 : A → A) fs path_batch,
     load_batch_x zero to_float64 fs path_batch false true
     = load_batch_x zero to_float64 fs path_batch false false)
  ∧ load_batch_x 0%Z round_to_53_bits example_files ["a.npy"; "b.npy"] false true
    = Ok (NdArray [2; 3; 1; 2] [1; 2; 3; 4; 0; 0; 5; 6; 7; 8; 9; 10]%Z, [2; 3])
  ∧ load_batch_x 0%Z round_to_53_bits example_files ["a.npy"; "b.npy"] true true
    = Ok (NdArray [3; 2; 2] [1; 2; 5; 6; 3; 4; 7; 8; 0; 0; 9; 10]%Z, [2; 3]).
Proof. split; [done|]. split; reflexivity. Qed.

(** ** [target_list_to_sparse_tensor] *)

(** The index pairs and values of the rows from row [k] on. *)
Lemma sparse_row_from (t_i : nat) (target : list Z) (k : nat)
    (indices : list (nat * nat)) (vals : list Z) :
  foldl (λ '(indices, vals) '(seq_i, val),
           (indices ++ [(t_i, seq_i)], vals ++ [val]))
        (indices, vals) (imap (λ j val, (k + j, val)) target)
  = (indices ++ ((λ seq_i, (t_i, seq_i)) <$> seq k (length target)),
     vals ++ target).
Proof.
  revert k indices vals.
  induction target as [|val target IH]; intros k indices vals.
  - simpl. by rewrite !app_nil_r.
  - rewrite imap_cons. cbn [foldl length seq fmap list_fmap].
    rewrite (imap_ext _ (λ j val, (S k + j, val)))
      by (intros; simpl; f_equal; lia).
    rewrite IH, Nat.add_0_r, <-!app_assoc. done.
Qed.

Lemma sparse_row_spec (t_i : nat) (target : list Z)
    (indices : list (nat * nat)) (vals : list Z) :
  sparse_row t_i target (indices, vals)
  = (indices ++ ((λ seq_i, (t_i, seq_i)) <$> seq 0 (length target)),
     vals ++ target).
Proof. apply (sparse_row_from t_i target 0). Qed.

Lemma enumerate_from_cons {X} (k : nat) (x : X) (xs : list X) :
  enumerate_from k (x :: xs) = (k, x) :: enumerate_from (S k) xs.
Proof.
  unfold enumerate_from. rewrite imap_cons, Nat.add_0_r. f_equal.
  apply imap_ext. intros; simpl; f_equal; lia.
Qed.

Lemma sparse_rows_from (target_list : list (list Z)) (k : nat)
    (indices : list (nat * nat)) (vals : list Z) :
  foldl (λ acc '(t_i, target), sparse_row t_i target acc)
        (indices, vals) (enumerate_from k target_list)
  = (indices ++ (enumerate_from k target_list ≫= row_indices),
     vals ++ mjoin target_list).
Proof.
  revert k indices vals.
  induction target_list as [|target target_list IH]; intros k indices vals.
  - simpl. by rewrite !app_nil_r.
  - rewrite enumerate_from_cons. cbn [foldl].
    by rewrite sparse_row_spec, IH, bind_cons, <-!app_assoc.
Qed.

Lemma sparse_rows_spec (target_list : list (list Z)) :
  sparse_rows target_list = (coo_indices target_list, mjoin target_list).
Proof.
  apply (sparse_rows_from target_list 0 (@nil (nat * nat)) (@nil Z)).
Qed.

Lemma max_list_app (l1 l2 : list nat) :
  max_list (l1 ++ l2) = max_list l1 `max` max_list l2.
Proof. induction l1 as [|x l1 IH]; simpl; [done|]. rewrite IH. lia. Qed.

Lemma max_list_seq (n : nat) : max_list (seq 0 n) = n - 1.
Proof.
  induction n as [|n IH]; [done|].
  rewrite seq_S, max_list_app, IH. simpl. lia.
Qed.

Lemma snd_row_indices (row : nat * list Z) :
  snd <$> row_indices row = seq 0 (length row.2).
Proof.
  unfold row_indices. rewrite <-list_fmap_compose. apply list_fmap_id.
Qed.

Lemma length_row_indices (row : nat * list Z) :
  length (row_indices row) = length row.2.
Proof. unfold row_indices. by rewrite length_fmap, length_seq. Qed.

Lemma length_indices_from (target_list : list (list Z)) (k : nat) :
  length (enumerate_from k target_list ≫= row_indices)
  = sum_list (length <$> target_list).
Proof.
  revert k. induction target_list as [|target target_list IH]; intros k.
  - done.
  - rewrite enumerate_from_cons, bind_cons, length_app, IH.
    by rewrite length_row_indices.
Qed.

Lemma length_join_sum (target_list : list (list Z)) :
  length (mjoin target_list) = sum_list (length <$> target_list).
Proof.
  induction target_list as [|target target_list IH]; [done|].
  simpl. by rewrite length_app, IH.
Qed.

Lemma max_column_from (target_list : list (list Z)) (k : nat) :
  max_list (snd <$> (enumerate_from k target_list ≫= row_indices))
  = max_length target_list - 1.
Proof.
  revert k. induction target_list as [|target target_list IH]; intros k.
  - done.
  - rewrite enumerate_from_cons, bind_cons, fmap_app, max_list_app, IH.
    rewrite snd_row_indices, max_list_seq. unfold max_length. csimpl. lia.
Qed.

Lemma indices_from_nil (target_list : list (list Z)) (k : nat) :
  Forall (λ target, target = []) target_list →
  enumerate_from k target_list ≫= row_indices = [].
Proof.
  intros Hall. revert k.
  induction Hall as [|target target_list -> _ IH]; intros k; [done|].
  by rewrite enumerate_from_cons, bind_cons, IH.
Qed.

Lemma max_length_pos (target_list : list (list Z)) :
  Exists (λ target, target ≠ []) target_list → 1 ≤ max_length target_list.
Proof.
  intros (target & Hin & Hne)%Exists_exists.
  assert (length target ≤ max_length target_list).
  { apply max_list_elem_of_le, list_elem_of_fmap. by exists target. }
  destruct target; [done|]. simpl in *. lia.
Qed.

(** Integers that all fit an int64 make an int64 array, which holds them
    as they are. *)
Lemma dtype_of_int_int64 (v : Z) : is_int64 v → dtype_of_int v = Int64.
Proof.
  unfold is_int64, dtype_of_int. intros [Hlo Hhi].
  apply Z.leb_le in Hlo. apply Z.ltb_lt in Hhi. by rewrite Hlo, Hhi.
Qed.

Lemma np_array_ints_int64 (vals : list Z) :
  Forall is_int64 vals → np_array_ints vals = vals.
Proof.
  intros Hall. unfold np_array_ints.
  destruct Hall as [|val vals Hval Hvals]; [done|].
  assert (dtype_of_ints (val :: vals) = Int64) as ->; [|done].
  unfold dtype_of_ints. rewrite (dtype_of_int_int64 val Hval).
  induction Hvals as [|v vals Hv _ IH]; [done|].
  cbn [foldl]. by rewrite (dtype_of_int_int64 v Hv).
Qed.

Lemma Forall_is_int64_join (target_list : list (list Z)) :
  Forall (Forall is_int64) target_list → Forall is_int64 (mjoin target_list).
Proof.
  induction 1 as [|target target_list Htarget _ IH]; [done|].
  cbn [mjoin list_join]. by apply Forall_app.
Qed.


(** The call returns as soon as one sequence holds a label. *)
Lemma target_list_to_sparse_tensor_Ok (target_list : list (list Z)) :
  Exists (λ target, target ≠ []) target_list →
  target_list_to_sparse_tensor target_list
  = Ok (coo_indices target_list, np_array_ints (mjoin target_list),
        (length target_list, max_length target_list)).
Proof.
  intros Hex. unfold target_list_to_sparse_tensor.
  rewrite sparse_rows_spec. unfold max_column.
  pose proof (max_length_pos _ Hex) as Hpos.
  rewrite py_max_max_list.
  - cbn [mbind result_bind]. unfold coo_indices.
    change (enumerate target_list) with (enumerate_from 0 target_list).
    rewrite max_column_from. do 3 f_equal. lia.
  - intros Hnil%fmap_nil_inv.
    pose proof (length_indices_from target_list 0) as Hlen.
    change (enumerate_from 0 target_list) with (enumerate target_list) in Hlen.
    fold (coo_indices target_list) in Hlen. rewrite Hnil in Hlen.
    apply Exists_exists in Hex as (target & Hin & Hne).
    assert (length target ≤ sum_list (length <$> target_list)).
    { apply sum_list_with_in with (f := id).
      apply list_elem_of_fmap. by exists target. }
    destruct target; [done|]. simpl in *. lia.
Qed.

(** C7 (as amended): when every input sequence is empty (the empty list
    included) the call raises and returns no triple. *)
Theorem target_list_to_sparse_tensor_all_empty (target_list : list (list Z)) :
  Forall (λ target, target = []) target_list →
  target_list_to_sparse_tensor target_list = Raise ValueError
  ∧ ¬ ∃ triple, target_list_to_sparse_tensor target_list = Ok triple.
Proof.
  intros Hall.
  assert (target_list_to_sparse_tensor target_list = Raise ValueError) as ->.
  { unfold target_list_to_sparse_tensor. rewrite sparse_rows_spec.
    unfold coo_indices.
    change (enumerate target_list) with (enumerate_from 0 target_list).
    by rewrite indices_from_nil. }
  split; [done|]. by intros [triple [=]].
Qed.

Lemma target_list_to_sparse_tensor_all_empty_witness :
  target_list_to_sparse_tensor [[]; []] = Raise ValueError
  ∧ ¬ ∃ triple, target_list_to_sparse_tensor [[]; []] = Ok triple.
Proof.
  apply target_list_to_sparse_tensor_all_empty. by repeat constructor.
Defined.

(** C7, as stated: the second sequence is empty and the call returns. *)
Lemma target_list_to_sparse_tensor_one_empty :
  [] ∈ [[1; 2]; []]%Z
  ∧ target_list_to_sparse_tensor [[1; 2]; []]%Z
    = Ok ([(0, 0); (0, 1)], [1; 2]%Z, (2, 2)).
Proof. split; [|reflexivity]. apply list_elem_of_further, list_elem_of_here. Qed.

Lemma StronglySorted_seq (k n : nat) : StronglySorted lt (seq k n).
Proof.
  revert k. induction n as [|n IH]; intros k; [constructor|].
  cbn [seq]. constructor; [apply IH|]. apply Forall_seq. lia.
Qed.

Lemma sorted_row_indices (row : nat * list Z) :
  StronglySorted index_lt (row_indices row).
Proof.
  unfold row_indices.
  apply (StronglySorted_fmap _ lt); [|apply StronglySorted_seq].
  intros x y Hxy. by right.
Qed.

Lemma indices_from_row_ge (target_list : list (list Z)) (k : nat) p :
  p ∈ enumerate_from k target_list ≫= row_indices → k ≤ p.1.
Proof.
  revert k. induction target_list as [|target target_list IH]; intros k.
  - by intros ?%not_elem_of_nil.
  - rewrite enumerate_from_cons, bind_cons.
    intros [Hp|Hp]%elem_of_app.
    + unfold row_indices in Hp. apply list_elem_of_fmap in Hp as (j & -> & _).
      done.
    + apply IH in Hp. lia.
Qed.

(** The index pairs come in increasing order of row, then of column. *)
Lemma sorted_indices_from (target_list : list (list Z)) (k : nat) :
  StronglySorted index_lt (enumerate_from k target_list ≫= row_indices).
Proof.
  revert k. induction target_list as [|target target_list IH]; intros k.
  - constructor.
  - rewrite enumerate_from_cons, bind_cons.
    apply StronglySorted_app_2; [|apply sorted_row_indices|apply IH].
    intros p q Hp Hq%indices_from_row_ge.
    unfold row_indices in Hp. apply list_elem_of_fmap in Hp as (j & -> & _).
    left. simpl. lia.
Qed.

(** *** Decoding *)

Lemma scatter_row (dense : list (list Z)) (r c0 : nat) (row target : list Z) :
  dense !! r = Some row → c0 + length target ≤ length row →
  foldl scatter_step dense
    (zip ((λ seq_i, (r, seq_i)) <$> seq c0 (length target)) target)
  = <[r := take c0 row ++ target ++ drop (c0 + length target) row]> dense.
Proof.
  revert dense c0 row.
  induction target as [|val target IH]; intros dense c0 row Hr Hlen.
  - simpl. rewrite Nat.add_0_r, take_drop. by rewrite list_insert_id.
  - cbn [length seq] in *. rewrite fmap_cons.
    cbn [zip_with foldl scatter_step].
    assert (Hr' : alter (<[c0:=val]>) r dense !! r = Some (<[c0:=val]> row)).
    { by rewrite list_lookup_alter_eq, Hr. }
    rewrite (IH _ (S c0) _ Hr') by (rewrite length_insert; lia).
    assert (alter (<[c0:=val]>) r dense = <[r := <[c0:=val]> row]> dense) as ->.
    { apply list_eq. intros i. destruct (decide (i = r)) as [->|].
      - rewrite list_lookup_alter_eq, Hr. simpl.
        by rewrite list_lookup_insert_eq by by eapply lookup_lt_Some.
      - by rewrite list_lookup_alter_ne, list_lookup_insert_ne. }
    rewrite list_insert_insert_eq. f_equal.
    rewrite (take_S_r _ _ val) by (apply list_lookup_insert_eq; lia).
    rewrite take_insert_ge by done. rewrite drop_insert_lt by lia.
    rewrite <-app_assoc. simpl. by rewrite Nat.add_succ_r.
Qed.

Lemma zip_indices_from_cons (target : list Z) (target_list : list (list Z))
    (k : nat) :
  zip (enumerate_from k (target :: target_list) ≫= row_indices)
      (mjoin (target :: target_list))
  = zip ((λ seq_i, (k, seq_i)) <$> seq 0 (length target)) target
    ++ zip (enumerate_from (S k) target_list ≫= row_indices)
           (mjoin target_list).
Proof.
  rewrite enumerate_from_cons, bind_cons. cbn [mjoin list_join].
  apply zip_with_app. by rewrite length_fmap, length_seq.
Qed.

(** Scattering the rows from row [k] on into an array whose rows from [k]
    on are still zero. *)
Lemma scatter_rows_from (target_list : list (list Z)) (k N L : nat)
    (done : list (list Z)) :
  length done = k → k + length target_list ≤ N →
  Forall (λ target, length target ≤ L) target_list →
  foldl scatter_step (done ++ replicate (N - k) (replicate L 0%Z))
    (zip (enumerate_from k target_list ≫= row_indices) (mjoin target_list))
  = done ++ (pad_to L <$> target_list)
    ++ replicate (N - k - length target_list) (replicate L 0%Z).
Proof.
  intros Hdone Hlen Hall. revert k done Hdone Hlen.
  induction Hall as [|target target_list Htarget _ IH];
    intros k done Hdone Hlen.
  - simpl. by rewrite Nat.sub_0_r.
  - cbn [length] in Hlen. rewrite zip_indices_from_cons, foldl_app.
    rewrite (scatter_row _ k 0 (replicate L 0%Z)).
    2:{ rewrite lookup_app_r by lia. rewrite Hdone, Nat.sub_diag.
        apply lookup_replicate_2. lia. }
    2:{ by rewrite length_replicate. }
    cbn [take app]. rewrite drop_replicate.
    replace (N - k) with (S (N - S k)) by lia. cbn [replicate].
    rewrite <-Hdone at 1. rewrite (insert_app_r_alt done _ (length done))
      by done.
    rewrite Nat.sub_diag. cbn [insert list_insert].
    rewrite (cons_middle _ done), app_assoc.
    rewrite (IH (S k)); [|rewrite length_app; simpl; lia|lia].
    rewrite <-app_assoc. cbn [fmap list_fmap app length].
    rewrite Nat.sub_succ. reflexivity.
Qed.

(** C2: for a non-empty list of non-empty sequences of labels that fit an
    int64 the call returns (1) the index pairs [row, column], one per label,
    in increasing order of row and then of column, (2) the labels in the
    same order, as many as index pairs and as the input holds labels, and
    (3) the shape (N, L) of the number of sequences and the longest length;
    scattering the values at the indices into an N-by-L array of zeros gives
    the sequences zero-padded to length L. *)
Theorem target_list_to_sparse_tensor_spec (target_list : list (list Z)) :
  target_list ≠ [] →
  Forall (λ target, target ≠ []) target_list →
  Forall (Forall is_int64) target_list →
  ∃ indices vals shape,
    target_list_to_sparse_tensor target_list = Ok (indices, vals, shape)
    ∧ indices = coo_indices target_list
    ∧ StronglySorted index_lt indices
    ∧ vals = mjoin target_list
    ∧ length indices = length vals
    ∧ length vals = sum_list (length <$> target_list)
    ∧ shape = (length target_list, max_length target_list)
    ∧ scatter indices vals shape
      = pad_to (max_length target_list) <$> target_list.
Proof.
  intros Hne Hall Hint. eexists _, _, _.
  split.
  { rewrite target_list_to_sparse_tensor_Ok.
    - by rewrite np_array_ints_int64 by by apply Forall_is_int64_join.
    - destruct target_list as [|target target_list]; [done|].
      apply Exists_cons_hd. by apply Forall_inv in Hall. }
  split; [done|]. unfold coo_indices.
  change (enumerate target_list) with (enumerate_from 0 target_list).
  split; [apply sorted_indices_from|]. split; [done|].
  split; [by rewrite length_indices_from, length_join_sum|].
  split; [apply length_join_sum|]. split; [done|].
  unfold scatter. cbn [fst snd].
  pose proof (scatter_rows_from target_list 0 (length target_list)
                (max_length target_list) []) as Hscatter.
  rewrite Nat.sub_0_r in Hscatter. cbn [app] in Hscatter.
  rewrite Hscatter; [|done|lia|].
  - by rewrite Nat.sub_diag, app_nil_r.
  - apply Forall_forall. intros target Hin.
    apply max_list_elem_of_le, list_elem_of_fmap. by exists target.
Qed.

Lemma target_list_to_sparse_tensor_spec_witness :
  ∃ indices vals shape,
    target_list_to_sparse_tensor [[1; 2]; [3]]%Z = Ok (indices, vals, shape)
    ∧ indices = coo_indices [[1; 2]; [3]]%Z
    ∧ StronglySorted index_lt indices
    ∧ vals = mjoin [[1; 2]; [3]]%Z
    ∧ length indices = length vals
    ∧ length vals = sum_list (length <$> [[1; 2]; [3]]%Z)
    ∧ shape = (length [[1; 2]; [3]]%Z, max_length [[1; 2]; [3]]%Z)
    ∧ scatter indices vals shape
      = pad_to (max_length [[1; 2]; [3]]%Z) <$> [[1; 2]; [3]]%Z.
Proof.
  apply target_list_to_sparse_tensor_spec;
    [done | by repeat constructor | repeat constructor; by vm_compute].
Defined.

(** One sequence of the labels 1 and 2^63 + 1: the first fits an int64, the
    second does not, the array of values is float64 and holds 2^63 for the
    second label; the values are not the labels, and scattering them does
    not give the sequence back. *)
Lemma target_list_to_sparse_tensor_rounds_labels :
  [[1; 2 ^ 63 + 1]]%Z ≠ []
  ∧ Forall (λ target, target ≠ []) [[1; 2 ^ 63 + 1]]%Z
  ∧ target_list_to_sparse_tensor [[1; 2 ^ 63 + 1]]%Z
    = Ok ([(0, 0); (0, 1)], [1; 2 ^ 63]%Z, (1, 2))
  ∧ [1; 2 ^ 63]%Z ≠ mjoin [[1; 2 ^ 63 + 1]]%Z
  ∧ scatter [(0, 0); (0, 1)] [1; 2 ^ 63]%Z (1, 2)
    ≠ pad_to (max_length [[1; 2 ^ 63 + 1]]%Z) <$> [[1; 2 ^ 63 + 1]]%Z.
Proof.
  split; [done|]. split; [by repeat constructor|].
  split; [by vm_compute|]. split; by vm_compute.
Qed.

(** ** [get_prefixes] *)

Lemma collect_in_directory (root extension : string) (filenames : list string)
    (prefixes : list string) :
  foldl (λ prefixes filename,
           if endswith filename extension
           then prefixes ++ [path_join root (before_period filename)]
           else prefixes)
        prefixes filenames
  = prefixes
    ++ ((λ filename, path_join root (before_period filename))
          <$> filter (λ filename, endswith filename extension = true) filenames).
Proof.
  revert prefixes.
  induction filenames as [|filename filenames IH]; intros prefixes.
  - simpl. by rewrite app_nil_r.
  - cbn [foldl]. rewrite IH.
    destruct (endswith filename extension) eqn:Hext.
    + rewrite filter_cons_True by done. rewrite fmap_cons, <-app_assoc. done.
    + rewrite filter_cons_False by by rewrite Hext. done.
Qed.

Lemma collect_prefixes_from (walk : list (string * list string * list string))
    (extension : string) (prefixes : list string) :
  foldl (λ prefixes '(root, _, filenames),
           foldl (λ prefixes filename,
                    if endswith filename extension
                    then prefixes ++ [path_join root (before_period filename)]
                    else prefixes)
                 prefixes filenames)
        prefixes walk
  = prefixes ++ matching_identifiers walk extension.
Proof.
  revert prefixes.
  induction walk as [|[[root dirs] filenames] walk IH]; intros prefixes.
  - simpl. by rewrite app_nil_r.
  - cbn [foldl]. rewrite IH, collect_in_directory.
    unfold matching_identifiers. by rewrite bind_cons, <-app_assoc.
Qed.

Lemma collect_prefixes_spec (walk : list (string * list string * list string))
    (extension : string) :
  collect_prefixes walk extension = matching_identifiers walk extension.
Proof. apply (collect_prefixes_from walk extension []). Qed.

Lemma elem_of_matching_identifiers
    (walk : list (string * list string * list string))
    (extension identifier : string) :
  identifier ∈ matching_identifiers walk extension ↔
  ∃ root dirs filenames filename,
    (root, dirs, filenames) ∈ walk ∧ filename ∈ filenames
    ∧ endswith filename extension = true
    ∧ identifier = path_join root (before_period filename).
Proof.
  unfold matching_identifiers. rewrite list_elem_of_bind. split.
  - intros ([[root dirs] filenames] & Hid & Hwalk).
    apply list_elem_of_fmap in Hid as (filename & -> & Hfile).
    apply list_elem_of_filter in Hfile as [Hext Hfile].
    by exists root, dirs, filenames, filename.
  - intros (root & dirs & filenames & filename & Hwalk & Hfile & Hext & ->).
    exists (root, dirs, filenames). split; [|done].
    apply list_elem_of_fmap. exists filename. split; [done|].
    by apply list_elem_of_filter.
Qed.

(** C9 (as amended): [get_prefixes] returns, in ascending order, one
    identifier per file of the tree whose name ends with the extension: the
    directory's path joined with the part of the filename before its first
    period.  An identifier that several matching files share is kept once
    per file. *)
Theorem get_prefixes_sorted (dirname : string) (tree : dirtree)
    (extension : string) :
  let walk := os_walk dirname tree in
  StronglySorted (≤)%string (get_prefixes dirname tree extension)
  ∧ get_prefixes dirname tree extension ≡ₚ matching_identifiers walk extension
  ∧ ∀ identifier,
      identifier ∈ get_prefixes dirname tree extension ↔
      ∃ root dirs filenames filename,
        (root, dirs, filenames) ∈ walk ∧ filename ∈ filenames
        ∧ endswith filename extension = true
        ∧ identifier = path_join root (before_period filename).
Proof.
  intros walk. unfold get_prefixes, sorted. fold walk.
  rewrite collect_prefixes_spec.
  split; [apply StronglySorted_merge_sort; apply _|].
  split; [apply merge_sort_Permutation|].
  intros identifier. rewrite merge_sort_Permutation.
  apply elem_of_matching_identifiers.
Qed.

(** C9, as stated: two files with the extension and one pre-period prefix
    give the identifier twice. *)
Lemma get_prefixes_shared_prefix :
  get_prefixes "d" (Dir ["a.x.npy"; "a.y.npy"] []) ".npy" = ["d/a"; "d/a"]
  ∧ ¬ NoDup (get_prefixes "d" (Dir ["a.x.npy"; "a.y.npy"] []) ".npy").
Proof.
  assert (H : get_prefixes "d" (Dir ["a.x.npy"; "a.y.npy"] []) ".npy"
              = ["d/a"; "d/a"]) by by vm_compute.
  split; [done|]. rewrite H. intros Hnodup.
  apply NoDup_cons in Hnodup as [Hnotin _]. apply Hnotin, list_elem_of_here.
Qed.

(** * Further properties of the code *)

(** ** [remove_multi] *)

(** X1: [remove_multi] returns the largest sub-list of its input without
    [to_remove]: it keeps the order, drops every occurrence of [to_remove]
    and keeps everything else. *)
Theorem remove_multi_largest_sublist {A : Type} `{!EqDecision A}
    (to_remove : A) (target_list : list A) :
  sublist (remove_multi to_remove target_list) target_list
  ∧ (to_remove ∉ remove_multi to_remove target_list)
  ∧ ∀ kept, sublist kept target_list → to_remove ∉ kept →
      sublist kept (remove_multi to_remove target_list).
Proof.
  unfold remove_multi. split; [apply sublist_filter|]. split.
  - intros [Hne _]%list_elem_of_filter. by apply Hne.
  - intros kept Hsub.
    induction Hsub as [|x kept l _ IH|x kept l _ IH]; intros Hnotin.
    + constructor.
    + apply not_elem_of_cons in Hnotin as [Hx Hkept].
      rewrite filter_cons_True by done. by apply sublist_skip, IH.
    + destruct (decide (x = to_remove)) as [->|Hx].
      * rewrite filter_cons_False by (intros H; by apply H). by apply IH.
      * rewrite filter_cons_True by done. by apply sublist_cons, IH.
Qed.

Lemma remove_multi_largest_sublist_witness :
  sublist (remove_multi 0%Z [1; 0; 2; 0]%Z) [1; 0; 2; 0]%Z
  ∧ (0%Z ∉ remove_multi 0%Z [1; 0; 2; 0]%Z)
  ∧ ∀ kept, sublist kept [1; 0; 2; 0]%Z → 0%Z ∉ kept →
      sublist kept (remove_multi 0%Z [1; 0; 2; 0]%Z).
Proof. apply (remove_multi_largest_sublist 0%Z [1; 0; 2; 0]%Z). Defined.

(** ** Errors of [zero_pad] and [load_batch_x] *)

Section error_facts.
Context {A : Type} (zero : A) (to_float64 : A → A).
Implicit Types (a utt batch : ndarray A).

Lemma bind_not_raise {X Y} (e : exn) (m : result X) (f : X → result Y) :
  m ≠ Raise e → (∀ x, m = Ok x → f x ≠ Raise e) → m ≫= f ≠ Raise e.
Proof.
  destruct m as [x|e']; cbn [mbind result_bind]; intros Hm Hf;
    [by apply Hf | intros [= ->]; by apply Hm].
Qed.

Lemma mapM_not_raise {X Y} (e : exn) (f : X → result Y) (l : list X) :
  Forall (λ x, f x ≠ Raise e) l → mapM f l ≠ Raise e.
Proof.
  induction 1 as [|x l Hx _ IH]; [done|]. cbn [mapM].
  apply bind_not_raise; [done|]. intros y _.
  apply bind_not_raise; [done|]. by intros k _.
Qed.

(** Broadcasting only ever raises [ValueError]. *)
Lemma broadcast_data_raises sh sh' (d : list A) e :
  broadcast_data sh sh' d = Raise e → e = ValueError.
Proof.
  destruct (decide (e = ValueError)) as [|Hne]; [done|]. intros H. exfalso.
  revert sh' d H. induction sh as [|s sh IH]; intros [|t sh'] d;
    cbn [broadcast_data]; try (intros [= <-]; done).
  repeat case_decide; [| |intros [= <-]; done].
  - apply bind_not_raise; [|by intros].
    apply mapM_not_raise, Forall_forall. intros i _ Hb. exact (IH _ _ Hb).
  - apply bind_not_raise; [|by intros]. intros Hb. exact (IH _ _ Hb).
Qed.

(** X2: [zero_pad] fails its assertion exactly when the array's first axis
    is longer than the target length, and raises [IndexError] exactly when
    the array has no axis. *)
Theorem zero_pad_errors (matrix : ndarray A) (to_length : nat) :
  (zero_pad zero to_float64 matrix to_length = Raise AssertionError
   ↔ ∃ n trail, shape matrix = n :: trail ∧ to_length < n)
  ∧ (zero_pad zero to_float64 matrix to_length = Raise IndexError
     ↔ shape matrix = []).
Proof.
  unfold zero_pad, shape0. destruct (shape matrix) as [|n trail] eqn:Hsh.
  - cbn [mbind result_bind]. split; split; try done.
    by intros (n & trail & [=] & _).
  - cbn [mbind result_bind]. case_decide as Hle.
    + assert (Hset : ∀ e, np_set_prefix to_float64
                (np_zeros zero (to_length :: tail (n :: trail))) n matrix
                = Raise e → e = ValueError).
      { intros e. unfold np_set_prefix. cbn [np_zeros shape].
        destruct (np_broadcast_to matrix _) as [d|e'] eqn:Hb; [done|].
        cbn [mbind result_bind]. intros [= ->].
        by apply broadcast_data_raises in Hb. }
      split; split; try done.
      * by intros ?%Hset.
      * intros (n' & trail' & [= <- <-] & Hlt). lia.
      * by intros ?%Hset.
    + split; split; try done. intros _. exists n, trail. split; [done|lia].
Qed.

Lemma mapM_np_load_missing fs (path_batch : list string) :
  Exists (λ path, fs path = None) path_batch →
  mapM (np_load (A:=A) fs) path_batch = Raise FileNotFoundError.
Proof.
  induction path_batch as [|path path_batch IH]; [by inversion 1|].
  intros Hex. cbn [mapM]. destruct (fs path) as [utt|] eqn:Hpath.
  - assert (np_load fs path = Ok utt) as ->
      by (unfold np_load; by rewrite Hpath).
    cbn [mbind result_bind]. rewrite IH; [reflexivity|].
    apply Exists_cons in Hex as [Hex|Hex]; [congruence|done].
  - assert (np_load fs path = Raise FileNotFoundError) as ->
      by (unfold np_load; by rewrite Hpath).
    reflexivity.
Qed.

(** X3: [load_batch_x] raises [FileNotFoundError] as soon as one path of
    the batch has no file, whatever the other files hold and whatever the
    flags; on an empty list of paths it raises [ValueError]. *)
Theorem load_batch_x_missing_file (fs : string → option (ndarray A))
    (path_batch : list string) (flatten time_major : bool) :
  Exists (λ path, fs path = None) path_batch →
  load_batch_x zero to_float64 fs path_batch flatten time_major = Raise FileNotFoundError
  ∧ load_batch_x zero to_float64 fs [] flatten time_major = Raise ValueError.
Proof.
  intros Hex. split; [|done].
  unfold load_batch_x. by rewrite mapM_np_load_missing.
Qed.

Lemma lookup_chunk k m (d : list A) x :
  x < k → chunk k m d !! x = d !! (m * k + x).
Proof. intros. unfold chunk. by rewrite lookup_take_lt, lookup_drop. Qed.

Lemma chunk_chunk k n0 j i (d : list A) :
  i < n0 → chunk k i (chunk (n0 * k) j d) = chunk k (j * n0 + i) d.
Proof.
  intros Hi. apply list_eq. intros x. unfold chunk.
  rewrite !lookup_take. case_decide; [|done].
  rewrite !lookup_drop, lookup_take_lt by nia.
  rewrite lookup_drop. f_equal. lia.
Qed.

Lemma chunk_bind_lookup {B} k (f : B → list A) (l : list B) i y :
  Forall (λ y, length (f y) = k) l → l !! i = Some y →
  chunk k i (l ≫= f) = f y.
Proof.
  intros Hall. revert i.
  induction Hall as [|y' l Hy' _ IH]; intros i Hi; [done|].
  rewrite bind_cons. unfold chunk. destruct i as [|i].
  - injection Hi as ->. simpl. by apply take_app_length'.
  - replace (S i * k) with (k + i * k) by lia.
    rewrite drop_app_add' by done. by apply IH.
Qed.

(** The blocks of a transposed grid, one element at a time. *)
Lemma swap_blocks_lookup n0 n1 k (d : list A) i j x :
  length d = n0 * n1 * k → i < n0 → j < n1 → x < k →
  swap_blocks n0 n1 k d !! ((j * n0 + i) * k + x)
  = d !! ((i * n1 + j) * k + x).
Proof.
  intros Hd Hi Hj Hx.
  rewrite <-!lookup_chunk by done.
  rewrite <-chunk_chunk by done.
  rewrite swap_blocks_chunk by done.
  rewrite (chunk_bind_seq k _ 0 n0 i); [done| |done].
  intros i' Hi'. apply length_chunk. rewrite Hd. simpl.
  by apply grid_block_bound.
Qed.

(** X4: on a batch of shape (N, T, C, F) the time-major result of
    [collapse] is the transposition of the batch-major one: it has shape
    (T, N, C*F) and its entry [t, n, j] is entry [n, t, j] of the
    batch-major result. *)
Theorem collapse_time_major_transposes (batch_x : ndarray A) (N T C F : nat) :
  shape batch_x = [N; T; C; F] → wf batch_x → 1 ≤ N → 1 ≤ C →
  ∃ batch_major time_major,
    collapse batch_x false = Ok batch_major
    ∧ collapse batch_x true = Ok time_major
    ∧ shape time_major = [T; N; C * F]
    ∧ ∀ n t j, n < N → t < T → j < C * F →
        np_get time_major [t; n; j] = np_get batch_major [n; t; j].
Proof.
  intros Hsh Hwf HN HC. eexists _, _.
  split; [by apply (collapse_batch_major _ N T C F [])|].
  split; [by apply (collapse_time_major _ N T C F)|].
  split; [done|]. intros n t j Hn Ht Hj.
  unfold np_get. cbn [shape data offset].
  replace (0 * T + t) with t by lia. replace (0 * N + n) with n by lia.
  apply swap_blocks_lookup; [|done..].
  unfold wf in Hwf. rewrite Hwf, Hsh. simpl. lia.
Qed.
End error_facts.

Lemma load_batch_x_missing_file_witness :
  load_batch_x 0%Z round_to_53_bits example_files ["a.npy"; "c.npy"] true false
    = Raise FileNotFoundError
  ∧ load_batch_x 0%Z round_to_53_bits example_files [] true false = Raise ValueError.
Proof.
  apply load_batch_x_missing_file.
  apply Exists_cons_tl, Exists_cons_hd. reflexivity.
Defined.

Lemma collapse_time_major_transposes_witness :
  ∃ batch_major time_major,
    collapse (NdArray [2; 3; 1; 2] (seq 0 12)) false = Ok batch_major
    ∧ collapse (NdArray [2; 3; 1; 2] (seq 0 12)) true = Ok time_major
    ∧ shape time_major = [3; 2; 1 * 2]
    ∧ ∀ n t j, n < 2 → t < 3 → j < 1 * 2 →
        np_get time_major [t; n; j] = np_get batch_major [n; t; j].
Proof.
  apply (collapse_time_major_transposes (NdArray [2; 3; 1; 2] (seq 0 12))
           2 3 1 2); [reflexivity | reflexivity | lia | lia].
Defined.

(** ** The batch of [load_batch_x] *)

Section batch_facts.
Context {A : Type} (zero : A) (to_float64 : A → A).
Implicit Types (a utt batch : ndarray A).

Lemma length_padded_data utt n trail max_len :
  shape utt = n :: trail → wf utt → n ≤ max_len →
  length (padded_data zero to_float64 max_len utt) = max_len * size_of trail.
Proof. apply wf_padded. Qed.

Lemma np_row_stacked_batch (utterances : list (ndarray A)) trail i utt :
  Forall (λ utt, wf utt ∧ ∃ n, shape utt = n :: trail) utterances →
  utterances !! i = Some utt →
  zero_pad zero to_float64 utt (max_list (first_dim <$> utterances))
  = Ok (np_row (stacked_batch zero to_float64 utterances trail) i).
Proof.
  intros Hutts Hi.
  set (max_len := max_list (first_dim <$> utterances)).
  assert (Hbound : Forall (λ utt, wf utt ∧ ∃ n, shape utt = n :: trail
                                              ∧ n ≤ max_len) utterances).
  { apply Forall_forall. intros utt' Hin.
    destruct (proj1 (Forall_forall _ _) Hutts utt' Hin) as (Hwf & n & Hsh).
    split; [done|]. exists n. split; [done|].
    apply max_list_elem_of_le, list_elem_of_fmap. exists utt'.
    by rewrite (first_dim_shape _ _ _ Hsh). }
  destruct (proj1 (Forall_lookup _ _) Hbound i utt Hi) as (Hwf & n & Hsh & Hn).
  rewrite (zero_pad_Ok zero to_float64 utt n trail max_len) by done.
  unfold np_row, stacked_batch. cbn [shape data tail]. fold max_len.
  rewrite size_of_cons. do 2 f_equal. symmetry.
  apply chunk_bind_lookup; [|done].
  eapply Forall_impl; [exact Hbound|].
  intros utt' (Hwf' & n' & Hsh' & Hn'). by eapply wf_padded.
Qed.

(** X5: without [flatten], [load_batch_x] returns a batch of shape
    (N, L) followed by the arrays' trailing dimensions, L being the largest
    first-axis length, and entry [i] of the batch is the array at path [i]
    as [zero_pad] pads it to L; the time-major flag changes nothing. *)
Theorem load_batch_x_rows (fs : string → option (ndarray A))
    (path_batch : list string) (time_major : bool) (trail : list nat) :
  path_batch ≠ [] →
  Forall (λ path, ∃ utt n, fs path = Some utt ∧ wf utt ∧ shape utt = n :: trail)
         path_batch →
  ∃ batch utter_lens max_len,
    load_batch_x zero to_float64 fs path_batch false time_major = Ok (batch, utter_lens)
    ∧ py_max utter_lens = Ok max_len
    ∧ shape batch = length path_batch :: max_len :: trail
    ∧ wf batch
    ∧ ∀ i path, path_batch !! i = Some path →
        ∃ utt, fs path = Some utt
               ∧ zero_pad zero to_float64 utt max_len = Ok (np_row batch i).
Proof.
  intros Hne Hfs.
  destruct (load_all fs path_batch trail Hfs)
    as (utterances & Hload & Hfs2 & Hutts).
  assert (Hlen : length path_batch = length utterances)
    by by eapply Forall2_length.
  assert (Hne' : utterances ≠ []).
  { destruct utterances; [|done]. by destruct path_batch. }
  exists (stacked_batch zero to_float64 utterances trail), (first_dim <$> utterances),
    (max_list (first_dim <$> utterances)).
  split.
  { by rewrite (load_batch_x_stacked zero to_float64 fs path_batch false time_major
                  utterances trail). }
  split; [apply py_max_max_list; by destruct utterances|].
  split; [by rewrite Hlen|]. split; [by apply wf_stacked_batch|].
  intros i path Hi.
  destruct (Forall2_lookup_l _ _ _ _ _ Hfs2 Hi) as (utt & Hutt & Hp).
  exists utt. split; [done|]. by apply np_row_stacked_batch.
Qed.

(** X6: with [flatten], arrays of shape (T, C, F) with C at least 1 give a
    batch of shape (N, L, C*F), or (L, N, C*F) with the time-major flag,
    whose entry for array [n], time step [t] and position [c*F + f] is
    entry [n, t, c, f] of the batch built without [flatten]. *)
Theorem load_batch_x_flattened (fs : string → option (ndarray A))
    (path_batch : list string) (time_major : bool) (C F : nat) :
  path_batch ≠ [] →
  Forall (λ path, ∃ utt n, fs path = Some utt ∧ wf utt ∧ shape utt = [n; C; F])
         path_batch →
  1 ≤ C →
  ∃ batch stacked utter_lens max_len,
    load_batch_x zero to_float64 fs path_batch true time_major = Ok (batch, utter_lens)
    ∧ load_batch_x zero to_float64 fs path_batch false time_major
      = Ok (stacked, utter_lens)
    ∧ py_max utter_lens = Ok max_len
    ∧ shape batch
      = (if time_major then [max_len; length path_batch; C * F]
         else [length path_batch; max_len; C * F])
    ∧ ∀ n t c f, n < length path_batch → t < max_len → c < C → f < F →
        np_get batch (if time_major then [t; n; c * F + f]
                      else [n; t; c * F + f])
        = np_get stacked [n; t; c; f].
Proof.
  intros Hne Hfs HC.
  destruct (load_all fs path_batch [C; F] Hfs)
    as (utterances & Hload & Hfs2 & Hutts).
  assert (Hlen : length path_batch = length utterances)
    by by eapply Forall2_length.
  assert (Hne' : utterances ≠ []).
  { destruct utterances; [|done]. by destruct path_batch. }
  assert (HN : 1 ≤ length utterances)
    by (destruct utterances; [done|simpl; lia]).
  pose proof (wf_stacked_batch zero to_float64 utterances [C; F] Hutts) as Hwf.
  set (max_len := max_list (first_dim <$> utterances)).
  assert (Hsh : shape (stacked_batch zero to_float64 utterances [C; F])
                = [length utterances; max_len; C; F]) by done.
  rewrite !(load_batch_x_stacked zero to_float64 fs path_batch _ time_major
              utterances [C; F]) by done.
  rewrite collapse_transposes_last.
  rewrite (collapse_batch_major _ _ _ _ _ [] Hsh Hwf HN HC).
  cbn [mbind result_bind]. rewrite Hlen.
  destruct time_major; cbn [np_transpose102 mbind result_bind].
  - eexists _, _, _, max_len. split; [done|]. split; [done|].
    split; [apply py_max_max_list; by destruct utterances|].
    split; [done|]. intros n t c f Hn Ht Hc Hf.
    unfold np_get. cbn [shape data offset]. fold max_len.
    replace (0 * max_len + t) with t by lia.
    replace (0 * length utterances + n) with n by lia.
    rewrite swap_blocks_lookup; [f_equal; rewrite Hsh; simpl; nia| |done..|nia].
    unfold wf in Hwf. rewrite Hwf, Hsh. simpl. lia.
  - eexists _, _, _, max_len. split; [done|]. split; [done|].
    split; [apply py_max_max_list; by destruct utterances|].
    split; [done|]. intros n t c f Hn Ht Hc Hf.
    unfold np_get. cbn [shape data]. fold max_len.
    by rewrite Hsh, offset_collapse.
Qed.
End batch_facts.

Lemma load_batch_x_rows_witness :
  ∃ batch utter_lens max_len,
    load_batch_x 0%Z round_to_53_bits example_files ["a.npy"; "b.npy"] false true
      = Ok (batch, utter_lens)
    ∧ py_max utter_lens = Ok max_len
    ∧ shape batch = length ["a.npy"; "b.npy"] :: max_len :: [1; 2]
    ∧ wf batch
    ∧ ∀ i path, ["a.npy"; "b.npy"] !! i = Some path →
        ∃ utt, example_files path = Some utt
               ∧ zero_pad 0%Z round_to_53_bits utt max_len = Ok (np_row batch i).
Proof.
  apply (load_batch_x_rows 0%Z round_to_53_bits example_files ["a.npy"; "b.npy"] true [1; 2]);
    [done|].
  repeat constructor.
  - by exists (NdArray [2; 1; 2] [1; 2; 3; 4]%Z), 2.
  - by exists (NdArray [3; 1; 2] [5; 6; 7; 8; 9; 10]%Z), 3.
Defined.

Lemma load_batch_x_flattened_witness :
  ∃ batch stacked utter_lens max_len,
    load_batch_x 0%Z round_to_53_bits example_files ["a.npy"; "b.npy"] true true
      = Ok (batch, utter_lens)
    ∧ load_batch_x 0%Z round_to_53_bits example_files ["a.npy"; "b.npy"] false true
      = Ok (stacked, utter_lens)
    ∧ py_max utter_lens = Ok max_len
    ∧ shape batch
      = (if true then [max_len; length ["a.npy"; "b.npy"]; 1 * 2]
         else [length ["a.npy"; "b.npy"]; max_len; 1 * 2])
    ∧ ∀ n t c f, n < length ["a.npy"; "b.npy"] → t < max_len → c < 1 →
        f < 2 →
        np_get batch (if true then [t; n; c * 2 + f] else [n; t; c * 2 + f])
        = np_get stacked [n; t; c; f].
Proof.
  apply (load_batch_x_flattened 0%Z round_to_53_bits example_files ["a.npy"; "b.npy"] true 1 2);
    [done| |lia].
  repeat constructor.
  - by exists (NdArray [2; 1; 2] [1; 2; 3; 4]%Z), 2.
  - by exists (NdArray [3; 1; 2] [5; 6; 7; 8; 9; 10]%Z), 3.
Defined.

(** ** [collapse] outside four axes *)

Section collapse_edges.
Context {A : Type}.
Implicit Types (a batch_x : ndarray A).

Lemma collapse_utterance_low_rank a :
  length (shape a) ≤ 2 → collapse_utterance a = Raise ValueError.
Proof.
  intros Hrank. unfold collapse_utterance, np_swapaxes01.
  destruct (shape a) as [|n0 [|n1 [|n2 rest]]]; [done..| |simpl in Hrank; lia].
  cbn [mbind result_bind]. unfold np_iter. cbn [shape mbind result_bind].
  destruct n1 as [|n1]; [done|]. cbn [seq fmap list_fmap].
  unfold np_concatenate_axis1, np_row. by cbn [shape tail].
Qed.

(** X7: [collapse] needs a batch of at least four axes: on a batch without
    axes the iteration raises [TypeError], and on a non-empty batch of one
    to three axes the exchange of axes or the concatenation raises
    [ValueError], with or without the time-major flag. *)
Theorem collapse_needs_four_axes (batch_x : ndarray A) (time_major : bool) :
  length (shape batch_x) < 4 →
  (shape batch_x = [] → collapse batch_x time_major = Raise TypeError)
  ∧ (1 ≤ first_dim batch_x → collapse batch_x time_major = Raise ValueError).
Proof.
  intros Hrank. unfold collapse, np_iter, first_dim.
  destruct (shape batch_x) as [|n rest] eqn:Hsh.
  - split; [done|]. simpl. lia.
  - split; [done|]. cbn [head default]. unfold id. intros Hn.
    destruct n as [|n]; [lia|]. cbn [seq fmap list_fmap mbind result_bind mapM].
    rewrite collapse_utterance_low_rank; [done|].
    unfold np_row. rewrite Hsh. cbn [shape tail]. simpl in Hrank. lia.
Qed.

(** X8: on a batch without elements [collapse] returns an array of shape
    (0,), whatever the other axes were, and raises [ValueError] with the
    time-major flag. *)
Theorem collapse_empty_batch (batch_x : ndarray A) (rest : list nat) :
  shape batch_x = 0 :: rest →
  collapse batch_x false = Ok (NdArray [0] [])
  ∧ collapse batch_x true = Raise ValueError.
Proof. intros Hsh. unfold collapse, np_iter. by rewrite Hsh. Qed.

(** X9: on a batch of four or more axes with at least one element and a
    third axis of length at least 1, [collapse] merges the third and fourth
    axes and leaves the elements in their row-major order; with five or
    more axes the time-major flag makes it raise [ValueError]. *)
Theorem collapse_keeps_elements (batch_x : ndarray A) (n n0 n1 n2 : nat)
    (rest : list nat) :
  shape batch_x = n :: n0 :: n1 :: n2 :: rest → wf batch_x →
  1 ≤ n → 1 ≤ n1 →
  collapse batch_x false
  = Ok (NdArray (n :: n0 :: n1 * n2 :: rest) (data batch_x))
  ∧ (rest ≠ [] → collapse batch_x true = Raise ValueError).
Proof.
  intros Hsh Hwf Hn Hn1.
  pose proof (collapse_batch_major _ _ _ _ _ _ Hsh Hwf Hn Hn1) as H.
  split; [done|]. intros Hrest. rewrite collapse_transposes_last, H.
  cbn [mbind result_bind]. unfold np_transpose102. cbn [shape].
  by destruct rest.
Qed.
End collapse_edges.

Lemma collapse_needs_four_axes_witness :
  (shape (NdArray [2; 2; 1] [1; 2; 3; 4]%Z) = [] →
   collapse (NdArray [2; 2; 1] [1; 2; 3; 4]%Z) false = Raise TypeError)
  ∧ (1 ≤ first_dim (NdArray [2; 2; 1] [1; 2; 3; 4]%Z) →
     collapse (NdArray [2; 2; 1] [1; 2; 3; 4]%Z) false = Raise ValueError).
Proof.
  apply (collapse_needs_four_axes (NdArray [2; 2; 1] [1; 2; 3; 4]%Z) false).
  simpl. lia.
Defined.

Lemma collapse_empty_batch_witness :
  collapse (NdArray [0; 3; 1; 2] (@nil Z)) false = Ok (NdArray [0] [])
  ∧ collapse (NdArray [0; 3; 1; 2] (@nil Z)) true = Raise ValueError.
Proof.
  apply (collapse_empty_batch (NdArray [0; 3; 1; 2] (@nil Z)) [3; 1; 2]).
  reflexivity.
Defined.

Lemma collapse_keeps_elements_witness :
  collapse (NdArray [1; 2; 1; 2; 2] (seq 0 8)) false
  = Ok (NdArray [1; 2; 1 * 2; 2] (seq 0 8))
  ∧ ([2] ≠ [] → collapse (NdArray [1; 2; 1; 2; 2] (seq 0 8)) true
                = Raise ValueError).
Proof.
  apply (collapse_keeps_elements (NdArray [1; 2; 1; 2; 2] (seq 0 8))
           1 2 1 2 [2]); [reflexivity | reflexivity | lia | lia].
Defined.

(** ** [get_prefix_lens] and [filter_by_size] *)

Section prefix_lens_facts.
Context {A : Type} (zero : A) (to_float64 : A → A).
Context (fs : string → option (ndarray A)).
Context (feat_dir feat_type : string).

Lemma load_batch_x_single path utt n trail :
  fs path = Some utt → wf utt → shape utt = n :: trail →
  ∃ batch, load_batch_x zero to_float64 fs [path] false false = Ok (batch, [n]).
Proof.
  intros Hpath Hwf Hsh.
  rewrite (load_batch_x_stacked zero to_float64 fs [path] false false [utt] trail).
  - eexists. cbn [mbind result_bind fmap list_fmap].
    by rewrite (first_dim_shape _ _ _ Hsh).
  - cbn [mapM]. unfold np_load. by rewrite Hpath.
  - done.
  - repeat constructor; eauto.
Qed.

Lemma get_prefix_lens_loop_Ok (prefixes : list string)
    (prefix_lens : list (string * nat)) :
  Forall (stored fs feat_dir feat_type) prefixes →
  get_prefix_lens_loop zero to_float64 fs feat_dir feat_type prefixes prefix_lens
  = Ok (prefix_lens
        ++ ((λ prefix, (prefix, stored_length fs feat_dir feat_type prefix))
              <$> prefixes)).
Proof.
  intros Hall. revert prefix_lens.
  induction Hall as [|prefix prefixes (utt & n & trail & Hp & Hwf & Hsh) _ IH];
    intros prefix_lens.
  - simpl. by rewrite app_nil_r.
  - cbn [get_prefix_lens_loop].
    destruct (load_batch_x_single _ utt n trail Hp Hwf Hsh) as [batch ->].
    cbn [mbind result_bind snd py_index lookup list_lookup].
    rewrite IH, fmap_cons, <-app_assoc. unfold stored_length at 2.
    by rewrite Hp; cbn [from_option]; rewrite (first_dim_shape _ _ _ Hsh).
Qed.

Lemma prefixes_within_fmap (length_of : string → nat) (max_samples : nat)
    (prefixes : list string) :
  prefixes_within max_samples ((λ prefix, (prefix, length_of prefix))
                                 <$> prefixes)
  = filter (λ prefix, length_of prefix ≤ max_samples) prefixes.
Proof.
  unfold prefixes_within.
  induction prefixes as [|prefix prefixes IH]; [done|].
  rewrite fmap_cons. destruct (decide (length_of prefix ≤ max_samples)).
  - rewrite !filter_cons_True by done. rewrite fmap_cons. by rewrite IH.
  - by rewrite !filter_cons_False by done.
Qed.

(** X10: when every prefix has its feature file, [get_prefix_lens] returns
    the prefixes in their order, each with the first-axis length of the
    array stored for it; the files need not share trailing dimensions. *)
Theorem get_prefix_lens_lengths (prefixes : list string) :
  Forall (stored fs feat_dir feat_type) prefixes →
  ∃ prefix_lens,
    get_prefix_lens zero to_float64 fs feat_dir prefixes feat_type = Ok prefix_lens
    ∧ prefix_lens.*1 = prefixes
    ∧ ∀ i prefix len, prefix_lens !! i = Some (prefix, len) →
        ∃ utt, fs (path_join feat_dir (feat_filename prefix feat_type))
               = Some utt
               ∧ head (shape utt) = Some len.
Proof.
  intros Hall. eexists. split; [by apply get_prefix_lens_loop_Ok|].
  cbn [app]. split.
  - rewrite <-list_fmap_compose. apply list_fmap_id.
  - intros i prefix len Hi.
    apply list_lookup_fmap_Some in Hi as (prefix' & [= <- ->] & Hi).
    destruct (proj1 (Forall_lookup _ _) Hall i prefix Hi)
      as (utt & n & trail & Hp & _ & Hsh).
    exists utt. split; [done|]. unfold stored_length.
    by rewrite Hp, Hsh; cbn [from_option]; rewrite (first_dim_shape _ _ _ Hsh).
Qed.

(** X11: when every prefix has its feature file, [filter_by_size] returns
    the prefixes whose stored length is at most [max_samples], in the order
    they were given: nothing is sorted by length. *)
Theorem filter_by_size_keeps_order (prefixes : list string)
    (max_samples : nat) :
  Forall (stored fs feat_dir feat_type) prefixes →
  filter_by_size zero to_float64 fs feat_dir prefixes feat_type max_samples
  = Ok (filter (λ prefix, stored_length fs feat_dir feat_type prefix
                          ≤ max_samples) prefixes).
Proof.
  intros Hall. unfold filter_by_size, get_prefix_lens.
  rewrite get_prefix_lens_loop_Ok by done.
  cbn [mbind result_bind app]. by rewrite prefixes_within_fmap.
Qed.

Lemma get_prefix_lens_loop_missing (prefixes : list string)
    (prefix_lens : list (string * nat)) :
  Forall (λ prefix,
            stored fs feat_dir feat_type prefix
            ∨ fs (path_join feat_dir (feat_filename prefix feat_type)) = None)
         prefixes →
  Exists (λ prefix,
            fs (path_join feat_dir (feat_filename prefix feat_type)) = None)
         prefixes →
  get_prefix_lens_loop zero to_float64 fs feat_dir feat_type prefixes prefix_lens
  = Raise FileNotFoundError.
Proof.
  intros Hall. revert prefix_lens.
  induction Hall as [|prefix prefixes Hprefix _ IH]; intros prefix_lens Hex;
    [by inversion Hex|].
  cbn [get_prefix_lens_loop].
  destruct Hprefix as [(utt & n & trail & Hp & Hwf & Hsh)|Hp].
  - destruct (load_batch_x_single _ utt n trail Hp Hwf Hsh) as [batch ->].
    cbn [mbind result_bind snd py_index lookup list_lookup]. apply IH.
    apply Exists_cons in Hex as [Hex|Hex]; [congruence|done].
  - unfold load_batch_x. rewrite mapM_np_load_missing; [done|].
    by apply Exists_cons_hd.
Qed.

(** X12: when one of the prefixes has no feature file, and the files that
    exist hold arrays with a first axis, [get_prefix_lens] and
    [filter_by_size] raise [FileNotFoundError]: no partial list comes
    back. *)
Theorem get_prefix_lens_missing_file (prefixes : list string)
    (max_samples : nat) :
  Forall (λ prefix,
            stored fs feat_dir feat_type prefix
            ∨ fs (path_join feat_dir (feat_filename prefix feat_type)) = None)
         prefixes →
  Exists (λ prefix,
            fs (path_join feat_dir (feat_filename prefix feat_type)) = None)
         prefixes →
  get_prefix_lens zero to_float64 fs feat_dir prefixes feat_type
    = Raise FileNotFoundError
  ∧ filter_by_size zero to_float64 fs feat_dir prefixes feat_type max_samples
    = Raise FileNotFoundError.
Proof.
  intros Hall Hex. unfold filter_by_size, get_prefix_lens.
  by rewrite get_prefix_lens_loop_missing.
Qed.
End prefix_lens_facts.

Lemma example_feats_stored :
  Forall (stored example_feats "feat" "fbank") ["u1"; "u2"; "u3"].
Proof.
  repeat constructor.
  - by exists (NdArray [3; 1; 2] [5; 6; 7; 8; 9; 10]%Z), 3, [1; 2].
  - by exists (NdArray [2; 1; 2] [1; 2; 3; 4]%Z), 2, [1; 2].
  - by exists (NdArray [1; 4] [1; 2; 3; 4]%Z), 1, [4].
Defined.

Lemma get_prefix_lens_lengths_witness :
  ∃ prefix_lens,
    get_prefix_lens 0%Z round_to_53_bits example_feats "feat" ["u1"; "u2"; "u3"] "fbank"
      = Ok prefix_lens
    ∧ prefix_lens.*1 = ["u1"; "u2"; "u3"]
    ∧ ∀ i prefix len, prefix_lens !! i = Some (prefix, len) →
        ∃ utt, example_feats (path_join "feat" (feat_filename prefix "fbank"))
               = Some utt
               ∧ head (shape utt) = Some len.
Proof.
  apply (get_prefix_lens_lengths 0%Z round_to_53_bits example_feats "feat" "fbank").
  exact example_feats_stored.
Defined.

Lemma filter_by_size_keeps_order_witness :
  filter_by_size 0%Z round_to_53_bits example_feats "feat" ["u1"; "u2"; "u3"] "fbank" 2
  = Ok (filter (λ prefix, stored_length example_feats "feat" "fbank" prefix ≤ 2)
          ["u1"; "u2"; "u3"]).
Proof.
  apply (filter_by_size_keeps_order 0%Z round_to_53_bits example_feats "feat" "fbank").
  exact example_feats_stored.
Defined.

Lemma get_prefix_lens_missing_file_witness :
  get_prefix_lens 0%Z round_to_53_bits example_feats "feat" ["u1"; "u4"] "fbank"
    = Raise FileNotFoundError
  ∧ filter_by_size 0%Z round_to_53_bits example_feats "feat" ["u1"; "u4"] "fbank" 2
    = Raise FileNotFoundError.
Proof.
  apply (get_prefix_lens_missing_file 0%Z round_to_53_bits example_feats "feat" "fbank").
  - apply Forall_cons. split.
    + left. by exists (NdArray [3; 1; 2] [5; 6; 7; 8; 9; 10]%Z), 3, [1; 2].
    + apply Forall_cons. split; [by right|apply Forall_nil_2].
  - apply Exists_cons_tl, Exists_cons_hd. reflexivity.
Defined.

(** ** [batch_per] *)

Lemma batch_per_loop_padding (hyps hyps' refs refs' : list (list Z))
    (range : list nat) (total : Q) :
  Forall2 (λ hyp hyp', strip_padding hyp = strip_padding hyp') hyps hyps' →
  Forall2 (λ ref ref', strip_padding ref = strip_padding ref') refs refs' →
  batch_per_loop hyps refs range total
  = batch_per_loop hyps' refs' range total.
Proof.
  intros Hhyps Hrefs. revert total.
  induction range as [|i range IH]; intros total; [done|].
  cbn [batch_per_loop]. unfold py_index.
  pose proof (proj1 (Forall2_lookup _ _ _) Hhyps i) as Hh.
  pose proof (proj1 (Forall2_lookup _ _ _) Hrefs i) as Hr.
  destruct Hr as [ref ref' Hr|]; [|done]. cbn [mbind result_bind].
  destruct Hh as [hyp hyp' Hh|]; [|done]. cbn [mbind result_bind].
  rewrite Hr, Hh.
  destruct (true_div _ _) as [per|e]; [|done]. cbn [mbind result_bind].
  apply IH.
Qed.

(** X13: [batch_per] sees its sequences only through their non-zero
    entries: batches that agree pair by pair after the zeros are removed
    give the same result, error or number. *)
Theorem batch_per_ignores_padding (hyps hyps' refs refs' : list (list Z)) :
  Forall2 (λ hyp hyp', strip_padding hyp = strip_padding hyp') hyps hyps' →
  Forall2 (λ ref ref', strip_padding ref = strip_padding ref') refs refs' →
  batch_per hyps refs = batch_per hyps' refs'.
Proof.
  intros Hhyps Hrefs. unfold batch_per.
  rewrite (batch_per_loop_padding hyps hyps' refs refs') by done.
  by rewrite (Forall2_length _ _ _ Hhyps).
Qed.

Lemma batch_per_ignores_padding_witness :
  batch_per [[1; 0; 3]; [0; 0]]%Z [[1; 2; 3; 0]; [4]]%Z
  = batch_per [[0; 1; 3]; []]%Z [[1; 0; 2; 3]; [0; 4; 0]]%Z.
Proof.
  apply batch_per_ignores_padding; by repeat constructor.
Defined.

Lemma batch_per_loop_short_refs (hyps refs : list (list Z)) (n k : nat)
    (total : Q) :
  k ≤ length refs < k + n → k + n = length hyps →
  Forall (λ ref, strip_padding ref ≠ []) refs →
  batch_per_loop hyps refs (seq k n) total = Raise IndexError.
Proof.
  intros Hk Hn Hrefs. revert k total Hk Hn.
  induction n as [|n IH]; intros k total Hk Hn; [lia|].
  cbn [seq batch_per_loop]. unfold py_index.
  destruct (refs !! k) as [ref|] eqn:Href; [|done].
  destruct (lookup_lt_is_Some_2 hyps k) as [hyp Hhyp]; [lia|].
  rewrite Hhyp. cbn [mbind result_bind].
  rewrite true_div_Ok.
  2:{ apply length_strip_padding_nonzero.
      by apply (Forall_lookup_1 _ _ _ _ Hrefs Href). }
  cbn [mbind result_bind]. apply IH; [|lia].
  apply lookup_lt_Some in Href. lia.
Qed.

(** X14: with fewer references than hypotheses, none of them all padding,
    [batch_per] raises [IndexError] when it reaches the first hypothesis
    without a reference. *)
Theorem batch_per_short_refs (hyps refs : list (list Z)) :
  length refs < length hyps →
  Forall (λ ref, ∃ phn, phn ∈ ref ∧ phn ≠ 0%Z) refs →
  batch_per hyps refs = Raise IndexError.
Proof.
  intros Hlen Hrefs. unfold batch_per.
  rewrite batch_per_loop_short_refs; [done|lia|done|].
  eapply Forall_impl; [exact Hrefs|]. apply strip_padding_nonempty.
Qed.

Lemma batch_per_short_refs_witness :
  batch_per [[1; 2]; [3]]%Z [[1; 2]]%Z = Raise IndexError.
Proof.
  apply batch_per_short_refs; [simpl; lia|].
  repeat constructor. exists 1%Z. split; [apply list_elem_of_here|lia].
Defined.

Lemma batch_per_loop_take (hyps refs : list (list Z)) (range : list nat)
    (total : Q) :
  Forall (λ i, i < length hyps) range →
  batch_per_loop hyps refs range total
  = batch_per_loop hyps (take (length hyps) refs) range total.
Proof.
  intros Hrange. revert total.
  induction Hrange as [|i range Hi _ IH]; intros total; [done|].
  cbn [batch_per_loop]. unfold py_index. rewrite lookup_take_lt by done.
  destruct (refs !! i); [|done]. cbn [mbind result_bind].
  destruct (hyps !! i); [|done]. cbn [mbind result_bind].
  destruct (true_div _ _); [|done]. cbn [mbind result_bind]. apply IH.
Qed.

(** X15: [batch_per] reads one reference per hypothesis: the references
    past the number of hypotheses do not count and cannot make it raise. *)
Theorem batch_per_extra_refs (hyps refs : list (list Z)) :
  batch_per hyps refs = batch_per hyps (take (length hyps) refs).
Proof.
  unfold batch_per. rewrite batch_per_loop_take; [done|].
  apply Forall_seq. lia.
Qed.

Lemma levenshtein_zero {A : Type} `{!EqDecision A} (s1 s2 : list A) :
  levenshtein s1 s2 = 0 → s1 = s2.
Proof.
  revert s2. induction s1 as [|c1 s1 IH]; intros [|c2 s2]; try done.
  rewrite levenshtein_cons. intros H.
  assert (Hdiag : levenshtein s1 s2 + subst_cost c1 c2 = 0) by lia.
  assert (Hcost : subst_cost c1 c2 = 0) by lia.
  unfold subst_cost in Hcost. case_decide as Hc; [|done]. subst c2.
  f_equal. apply IH. lia.
Qed.

Lemma pair_error_rate_nonneg (hyp ref : list Z) :
  (0 <= pair_error_rate hyp ref)%Q.
Proof.
  unfold pair_error_rate, Qdiv. apply Qmult_le_0_compat.
  - change 0%Q with (inject_Z 0). rewrite <-Zle_Qle. lia.
  - apply Qinv_le_0_compat. change 0%Q with (inject_Z 0).
    rewrite <-Zle_Qle. lia.
Qed.

Lemma pair_error_rate_zero (hyp ref : list Z) :
  strip_padding ref ≠ [] → (pair_error_rate hyp ref == 0)%Q →
  strip_padding hyp = strip_padding ref.
Proof.
  intros Hne Hzero. symmetry. apply levenshtein_zero.
  unfold pair_error_rate, Qdiv in Hzero.
  apply Qmult_integral in Hzero as [Hzero|Hzero].
  - unfold Qeq in Hzero. simpl in Hzero. lia.
  - exfalso. apply length_strip_padding_nonzero in Hne.
    destruct (length (strip_padding ref)) as [|n]; [done|].
    revert Hzero. unfold Qeq, Qinv. simpl. lia.
Qed.

Lemma Qsum_nonneg (qs : list Q) : Forall (λ q, 0 <= q)%Q qs → (0 <= Qsum qs)%Q.
Proof.
  induction 1 as [|q qs Hq _ IH]; simpl; [apply Qle_refl|].
  fold (Qsum qs). lra.
Qed.

Lemma Qsum_zero_identical (hyps refs : list (list Z)) :
  length hyps = length refs →
  Forall (λ ref, strip_padding ref ≠ []) refs →
  (Qsum (zip_with pair_error_rate hyps refs) == 0)%Q →
  Forall2 (λ hyp ref, strip_padding hyp = strip_padding ref) hyps refs.
Proof.
  intros Hlen Hrefs. revert hyps Hlen.
  induction Hrefs as [|ref refs Href _ IH]; intros [|hyp hyps] Hlen Hsum;
    try done; try (by constructor).
  cbn [zip_with Qsum foldr] in Hsum.
  fold (Qsum (zip_with pair_error_rate hyps refs)) in Hsum.
  pose proof (pair_error_rate_nonneg hyp ref) as Hq.
  assert (Hqs : (0 <= Qsum (zip_with pair_error_rate hyps refs))%Q).
  { apply Qsum_nonneg, Forall_forall. intros q Hin.
    apply list_elem_of_lookup in Hin as [i Hi].
    apply lookup_zip_with_Some in Hi as (h & r & -> & _ & _).
    apply pair_error_rate_nonneg. }
  constructor.
  - apply pair_error_rate_zero; [done|]. lra.
  - apply IH; [by injection Hlen|]. lra.
Qed.

(** X16: on non-empty batches of equal length whose references each hold
    a non-zero entry, the error rate is 0 exactly when every hypothesis
    equals its reference once the zeros are removed. *)
Theorem batch_per_zero_iff (hyps refs : list (list Z)) :
  hyps ≠ [] →
  length hyps = length refs →
  Forall (λ ref, ∃ phn, phn ∈ ref ∧ phn ≠ 0%Z) refs →
  ∃ per, batch_per hyps refs = Ok per
    ∧ ((per == 0)%Q ↔
       Forall2 (λ hyp ref, strip_padding hyp = strip_padding ref) hyps refs).
Proof.
  intros Hne Hlen Hrefs.
  assert (Hrefs' : Forall (λ ref, strip_padding ref ≠ []) refs).
  { eapply Forall_impl; [exact Hrefs|]. apply strip_padding_nonempty. }
  destruct (batch_per_loop_sum hyps refs (length hyps) 0 0%Q)
    as (total & Hloop & Htotal); [done..|].
  unfold batch_per. rewrite Hloop. cbn [mbind result_bind].
  unfold div_by_len. rewrite decide_False by by destruct hyps.
  eexists. split; [done|].
  cbn [drop] in Htotal. rewrite Qplus_0_l in Htotal. rewrite Htotal.
  assert (HN : ¬ (inject_Z (Z.of_nat (length hyps)) == 0)%Q).
  { unfold Qeq. simpl. destruct hyps; [done|simpl; lia]. }
  split.
  - intros Hzero. apply Qsum_zero_identical; [done..|].
    unfold Qdiv in Hzero. apply Qmult_integral in Hzero as [|Hinv]; [done|].
    exfalso. apply HN. rewrite <-(Qinv_involutive (inject_Z _)), Hinv. done.
  - intros Hsame. rewrite (Qsum_identical _ _ Hsame). unfold Qdiv. ring.
Qed.

Lemma batch_per_zero_iff_witness :
  ∃ per, batch_per [[1; 3]; [1; 0; 0]]%Z [[1; 2; 3]; [1; 0; 0]]%Z = Ok per
    ∧ ((per == 0)%Q ↔
       Forall2 (λ hyp ref, strip_padding hyp = strip_padding ref)
         [[1; 3]; [1; 0; 0]]%Z [[1; 2; 3]; [1; 0; 0]]%Z).
Proof.
  apply batch_per_zero_iff; [done | reflexivity |].
  repeat constructor; exists 1%Z; (split; [apply list_elem_of_here | lia]).
Defined.

(** ** [target_list_to_sparse_tensor] with empty sequences *)



(** ** [get_prefixes] over the tree *)

Lemma length_matching_identifiers
    (walk : list (string * list string * list string)) (extension : string) :
  length (matching_identifiers walk extension)
  = sum_list ((λ entry : string * list string * list string,
                 length (filter (λ filename,
                                   endswith filename extension = true)
                                entry.2))
                <$> walk).
Proof.
  unfold matching_identifiers.
  induction walk as [|[[root dirs] filenames] walk IH]; [done|].
  rewrite bind_cons, length_app, IH, length_fmap. done.
Qed.

(** X18: [get_prefixes] returns as many identifiers as the tree holds files
    whose name ends with the extension, and the empty list exactly when no
    file of the tree does. *)
Theorem get_prefixes_count (dirname : string) (tree : dirtree)
    (extension : string) :
  length (get_prefixes dirname tree extension)
  = sum_list ((λ entry : string * list string * list string,
                 length (filter (λ filename,
                                   endswith filename extension = true)
                                entry.2))
                <$> os_walk dirname tree)
  ∧ (get_prefixes dirname tree extension = [] ↔
     ∀ root dirs filenames filename,
       (root, dirs, filenames) ∈ os_walk dirname tree →
       filename ∈ filenames → endswith filename extension = false).
Proof.
  assert (Hperm : get_prefixes dirname tree extension
                  ≡ₚ matching_identifiers (os_walk dirname tree) extension).
  { unfold get_prefixes, sorted. rewrite collect_prefixes_spec.
    apply merge_sort_Permutation. }
  split.
  - rewrite Hperm. apply length_matching_identifiers.
  - split.
    + intros Hnil root dirs filenames filename Hwalk Hfile.
      destruct (endswith filename extension) eqn:Hext; [|done]. exfalso.
      assert (path_join root (before_period filename)
              ∈ get_prefixes dirname tree extension) as Hin.
      { rewrite Hperm. apply elem_of_matching_identifiers.
        by exists root, dirs, filenames, filename. }
      rewrite Hnil in Hin. by apply not_elem_of_nil in Hin.
    + intros Hnone.
      destruct (get_prefixes dirname tree extension) as [|identifier rest]
        eqn:Hget; [done|]. exfalso.
      assert (identifier ∈ matching_identifiers (os_walk dirname tree)
                             extension) as Hin.
      { rewrite <-Hperm. apply list_elem_of_here. }
      apply elem_of_matching_identifiers in Hin
        as (root & dirs & filenames & filename & Hwalk & Hfile & Hext & _).
      by rewrite (Hnone _ _ _ _ Hwalk Hfile) in Hext.
Qed.

(** X19: the identifiers of a directory are those of its own matching
    files, joined to its path, together with the identifiers of each
    sub-directory scanned from its own joined path (up to the final
    sorting). *)
Theorem get_prefixes_subdirs (dirname : string) (files : list string)
    (subdirs : list (string * dirtree)) (extension : string) :
  get_prefixes dirname (Dir files subdirs) extension
  ≡ₚ ((λ filename, path_join dirname (before_period filename))
        <$> filter (λ filename, endswith filename extension = true) files)
     ++ (subdirs ≫= λ entry,
           get_prefixes (path_join dirname entry.1) entry.2 extension).
Proof.
  unfold get_prefixes at 1, sorted. rewrite collect_prefixes_spec.
  rewrite merge_sort_Permutation. cbn [os_walk].
  unfold matching_identifiers at 1. rewrite bind_cons.
  apply Permutation_app; [done|].
  induction subdirs as [|[name sub] subdirs IH]; [done|].
  rewrite bind_app, (bind_cons _ (name, sub)). apply Permutation_app.
  - cbn [fst snd]. unfold get_prefixes, sorted.
    rewrite collect_prefixes_spec. by rewrite merge_sort_Permutation.
  - apply IH.
Qed.

(** ** [calc_time] *)

Lemma calc_time_loop_sum (wav_read : string → option (nat * nat))
    (wav_paths : list string) (total_secs : Q) (printed : list string) :
  Forall (λ path, ∃ rate len_sig,
            wav_read path = Some (rate, len_sig) ∧ rate ≠ 0) wav_paths →
  ∃ secs, calc_time_loop wav_read wav_paths total_secs printed
          = Ok (secs, printed ++ wav_paths)
    ∧ (secs == total_secs + Qsum (wav_seconds wav_read <$> wav_paths))%Q.
Proof.
  intros Hall. revert total_secs printed.
  induction Hall as [|path wav_paths (rate & len_sig & Hpath & Hrate) _ IH];
    intros total_secs printed.
  - exists total_secs. simpl. rewrite app_nil_r. split; [done|]. ring.
  - cbn [calc_time_loop]. rewrite Hpath, true_div_Ok by done.
    cbn [mbind result_bind].
    destruct (IH (total_secs + inject_Z (Z.of_nat len_sig)
                               / inject_Z (Z.of_nat rate))%Q
                 (printed ++ [path])) as (secs & -> & Hsecs).
    exists secs. split; [by rewrite <-app_assoc|].
    rewrite Hsecs, fmap_cons. cbn [Qsum foldr]. unfold wav_seconds at 2.
    rewrite Hpath. unfold Qsum. ring.
Qed.

(** X20: for WAV files that exist and have a non-zero sampling rate,
    [calc_time] returns the sum of their durations (samples over rate) in
    minutes, and has printed each path once, in order. *)
Theorem calc_time_minutes (wav_read : string → option (nat * nat))
    (wav_paths : list string) :
  Forall (λ path, ∃ rate len_sig,
            wav_read path = Some (rate, len_sig) ∧ rate ≠ 0) wav_paths →
  ∃ total_mins, calc_time wav_read wav_paths = Ok (total_mins, wav_paths)
    ∧ (total_mins == Qsum (wav_seconds wav_read <$> wav_paths) / 60)%Q.
Proof.
  intros Hall.
  destruct (calc_time_loop_sum wav_read wav_paths 0%Q [] Hall)
    as (secs & Hloop & Hsecs).
  unfold calc_time. rewrite Hloop. cbn [mbind result_bind fst snd app].
  eexists. split; [done|]. rewrite Hsecs. by rewrite Qplus_0_l.
Qed.

Lemma calc_time_minutes_witness :
  ∃ total_mins, calc_time example_wavs ["a.wav"; "b.wav"]
                = Ok (total_mins, ["a.wav"; "b.wav"])
    ∧ (total_mins
       == Qsum (wav_seconds example_wavs <$> ["a.wav"; "b.wav"]) / 60)%Q.
Proof.
  apply (calc_time_minutes example_wavs ["a.wav"; "b.wav"]).
  repeat constructor.
  - by exists 4, 8.
  - by exists 2, 1.
Defined.

(** ** [utterances_from_eaf] *)

Section elan_facts.
Context {path : Type} (os : Elan.pathlib path).
Implicit Types (mds : list Elan.media_descriptor) (candidate : string → path).

Lemma first_media_file_Some candidate mds media_path :
  Elan.first_media_file os candidate mds = inr (Some media_path) →
  Elan.is_file os media_path = true
  ∧ ∃ md url, md ∈ mds ∧ md !! "RELATIVE_MEDIA_URL" = Some url
              ∧ media_path = candidate url.
Proof.
  induction mds as [|md mds IH]; [done|]. cbn [Elan.first_media_file].
  destruct (md !! "RELATIVE_MEDIA_URL") as [url|] eqn:Hurl; [|done].
  destruct (Elan.is_file os (candidate url)) eqn:Hfile.
  - intros [= <-]. split; [done|]. exists md, url.
    split; [apply list_elem_of_here|done].
  - intros (Hf & md' & url' & Hin & Hurl' & ->)%IH. split; [done|].
    exists md', url'. split; [by apply list_elem_of_further|done].
Qed.

Lemma first_media_file_None candidate mds :
  Elan.first_media_file os candidate mds = inr None ↔
  Forall (λ md, ∃ url, md !! "RELATIVE_MEDIA_URL" = Some url
                       ∧ Elan.is_file os (candidate url) = false) mds.
Proof.
  induction mds as [|md mds IH]; [by split; [constructor|]|].
  cbn [Elan.first_media_file]. rewrite Forall_cons.
  destruct (md !! "RELATIVE_MEDIA_URL") as [url|] eqn:Hurl.
  - destruct (Elan.is_file os (candidate url)) eqn:Hfile.
    + split; [done|]. intros [(url' & [= <-] & Hf) _]. congruence.
    + rewrite IH. split; [|by intros [_ ?]]. intros Hall. split; [|done].
      by exists url.
  - split; [done|]. by intros [(url' & [=] & _) _].
Qed.

Lemma first_media_file_error candidate mds e :
  Elan.first_media_file os candidate mds = inl e → e = Elan.KeyError.
Proof.
  induction mds as [|md mds IH]; [done|]. cbn [Elan.first_media_file].
  destruct (md !! "RELATIVE_MEDIA_URL") as [url|]; [|by intros [= <-]].
  by destruct (Elan.is_file os (candidate url)).
Qed.

Lemma get_eaf_media_path_found (eaf_path : path) mds (media_path : path) :
  Elan.get_eaf_media_path os eaf_path mds = inr media_path →
  Elan.is_file os media_path = true
  ∧ ∃ md url, md ∈ mds ∧ md !! "RELATIVE_MEDIA_URL" = Some url
      ∧ (media_path = Elan.relative_candidate os eaf_path url
         ∨ media_path = Elan.same_directory_candidate os eaf_path url).
Proof.
  unfold Elan.get_eaf_media_path.
  destruct (Elan.first_media_file os (Elan.relative_candidate os eaf_path) mds)
    as [e|[found|]] eqn:Hfirst; [done| |].
  - intros [= <-]. apply first_media_file_Some in Hfirst
      as (Hf & md & url & Hin & Hurl & ->).
    split; [done|]. exists md, url. auto.
  - destruct (Elan.first_media_file os
                (Elan.same_directory_candidate os eaf_path) mds)
      as [e|[found|]] eqn:Hsecond; [done| |done].
    intros [= <-]. apply first_media_file_Some in Hsecond
      as (Hf & md & url & Hin & Hurl & ->).
    split; [done|]. exists md, url. auto.
Qed.

(** X21: the media path [utterances_from_eaf] settles on is an existing
    file, built from the directory of the [.eaf] file and the relative URL
    of one of its media descriptors, or the file name of that URL. *)
Theorem get_eaf_media_path_exists (eaf_path : path) mds (media_path : path) :
  Elan.get_eaf_media_path os eaf_path mds = inr media_path →
  Elan.is_file os media_path = true
  ∧ ∃ md url, md ∈ mds ∧ md !! "RELATIVE_MEDIA_URL" = Some url
      ∧ (media_path = Elan.relative_candidate os eaf_path url
         ∨ media_path = Elan.same_directory_candidate os eaf_path url).
Proof. apply get_eaf_media_path_found. Qed.

(** X22: when every media descriptor has a relative URL, the search raises
    [FileNotFoundError] exactly when no descriptor's relative URL and no
    descriptor's file name leads to a file next to the [.eaf] file; it
    never raises [KeyError] then. *)
Theorem get_eaf_media_path_not_found (eaf_path : path) mds :
  Forall (λ md, is_Some (md !! "RELATIVE_MEDIA_URL")) mds →
  (Elan.get_eaf_media_path os eaf_path mds = inl Elan.FileNotFoundError ↔
   ∀ md url, md ∈ mds → md !! "RELATIVE_MEDIA_URL" = Some url →
     Elan.is_file os (Elan.relative_candidate os eaf_path url) = false
     ∧ Elan.is_file os (Elan.same_directory_candidate os eaf_path url) = false)
  ∧ Elan.get_eaf_media_path os eaf_path mds ≠ inl Elan.KeyError.
Proof.
  intros Hkeys.
  assert (Hnone : ∀ candidate,
    Elan.first_media_file os candidate mds = inr None ↔
    ∀ md url, md ∈ mds → md !! "RELATIVE_MEDIA_URL" = Some url →
      Elan.is_file os (candidate url) = false).
  { intros candidate. rewrite first_media_file_None, Forall_forall. split.
    - intros H md url Hin Hurl. destruct (H md Hin) as (url' & Hurl' & Hf).
      congruence.
    - intros H md Hin.
      destruct (proj1 (Forall_forall _ _) Hkeys md Hin) as [url Hurl].
      exists url. split; [done|]. by eapply H. }
  assert (Hkey : ∀ candidate,
    Elan.first_media_file os candidate mds ≠ inl Elan.KeyError).
  { intros candidate. clear Hnone.
    induction Hkeys as [|md mds [url Hurl] _ IH]; [done|].
    cbn [Elan.first_media_file]. rewrite Hurl.
    by destruct (Elan.is_file os (candidate url)). }
  unfold Elan.get_eaf_media_path.
  destruct (Elan.first_media_file os (Elan.relative_candidate os eaf_path) mds)
    as [e|[found|]] eqn:Hfirst.
  - apply first_media_file_error in Hfirst as Heq. subst e.
    by destruct (Hkey (Elan.relative_candidate os eaf_path)).
  - split; [|done]. split; [done|]. intros Hall.
    apply first_media_file_Some in Hfirst as (Hf & md & url & Hin & Hurl & ->).
    destruct (Hall md url Hin Hurl) as [Hrel _]. congruence.
  - pose proof (proj1 (Hnone _) Hfirst) as Hrel.
    destruct (Elan.first_media_file os
                (Elan.same_directory_candidate os eaf_path) mds)
      as [e|[found|]] eqn:Hsecond.
    + apply first_media_file_error in Hsecond as Heq. subst e.
      by destruct (Hkey (Elan.same_directory_candidate os eaf_path)).
    + split; [|done]. split; [done|]. intros Hall.
      apply first_media_file_Some in Hsecond
        as (Hf & md & url & Hin & Hurl & ->).
      destruct (Hall md url Hin Hurl) as [_ Hsame]. congruence.
    + pose proof (proj1 (Hnone _) Hsecond) as Hsame.
      split; [|done]. split; [|done].
      intros _ md url Hin Hurl. split; eauto.
Qed.

(** X23: a descriptor whose relative URL leads to a file wins over the
    file names of all descriptors: when the descriptors before it have a
    relative URL that leads to no file, the search returns its relative
    path, whatever files sit next to the [.eaf] file. *)
Theorem get_eaf_media_path_relative_first (eaf_path : path)
    (before after : list Elan.media_descriptor) (md : Elan.media_descriptor)
    (url : string) :
  Forall (λ md', ∃ url', md' !! "RELATIVE_MEDIA_URL" = Some url'
            ∧ Elan.is_file os (Elan.relative_candidate os eaf_path url')
              = false) before →
  md !! "RELATIVE_MEDIA_URL" = Some url →
  Elan.is_file os (Elan.relative_candidate os eaf_path url) = true →
  Elan.get_eaf_media_path os eaf_path (before ++ md :: after)
  = inr (Elan.relative_candidate os eaf_path url).
Proof.
  intros Hbefore Hurl Hfile. unfold Elan.get_eaf_media_path.
  assert (Elan.first_media_file os (Elan.relative_candidate os eaf_path)
            (before ++ md :: after)
          = inr (Some (Elan.relative_candidate os eaf_path url))) as ->; [|done].
  induction Hbefore as [|md' before (url' & Hurl' & Hf') _ IH].
  - cbn [app Elan.first_media_file]. by rewrite Hurl, Hfile.
  - cbn [app Elan.first_media_file]. by rewrite Hurl', Hf'.
Qed.

(** X24: [utterances_from_eaf] raises [FileNotFoundError] without reading
    anything when the [.eaf] path is not a file; when it returns it has
    printed one path, an existing media file found from a descriptor of the
    file, and it returns no utterance. *)
Theorem utterances_from_eaf_prints_media
    (read_eaf : path → option (list Elan.media_descriptor)) (eaf_path : path) :
  (Elan.is_file os eaf_path = false →
   Elan.utterances_from_eaf os read_eaf eaf_path = inl Elan.FileNotFoundError)
  ∧ ∀ printed, Elan.utterances_from_eaf os read_eaf eaf_path = inr printed →
      Elan.is_file os eaf_path = true
      ∧ ∃ mds media_path,
          read_eaf eaf_path = Some mds
          ∧ Elan.get_eaf_media_path os eaf_path mds = inr media_path
          ∧ printed = [media_path]
          ∧ Elan.is_file os media_path = true.
Proof.
  unfold Elan.utterances_from_eaf. split.
  - by intros ->.
  - intros printed. destruct (Elan.is_file os eaf_path); [|done].
    destruct (read_eaf eaf_path) as [mds|]; [|done].
    destruct (Elan.get_eaf_media_path os eaf_path mds) as [e|media_path]
      eqn:Hmedia; [done|].
    intros [= <-]. split; [done|]. exists mds, media_path.
    repeat split; try done.
    by apply get_eaf_media_path_found in Hmedia as [? _].
Qed.
End elan_facts.

Lemma example_descriptor_url (url : string) :
  example_descriptor url !! "RELATIVE_MEDIA_URL" = Some url.
Proof. apply lookup_singleton_eq. Qed.

Lemma get_eaf_media_path_exists_witness :
  Elan.is_file example_os "corpus/b.wav" = true
  ∧ ∃ md url,
      md ∈ [example_descriptor "media/a.wav"; example_descriptor "media/b.wav"]
      ∧ md !! "RELATIVE_MEDIA_URL" = Some url
      ∧ ("corpus/b.wav" = Elan.relative_candidate example_os "corpus/x.eaf" url
         ∨ "corpus/b.wav"
           = Elan.same_directory_candidate example_os "corpus/x.eaf" url).
Proof.
  apply (get_eaf_media_path_exists example_os "corpus/x.eaf").
  unfold Elan.get_eaf_media_path. cbn [Elan.first_media_file].
  rewrite !example_descriptor_url. reflexivity.
Defined.

Lemma get_eaf_media_path_not_found_witness :
  (Elan.get_eaf_media_path example_os "corpus/x.eaf"
     [example_descriptor "media/a.wav"] = inl Elan.FileNotFoundError ↔
   ∀ md url, md ∈ [example_descriptor "media/a.wav"] →
     md !! "RELATIVE_MEDIA_URL" = Some url →
     Elan.is_file example_os
       (Elan.relative_candidate example_os "corpus/x.eaf" url) = false
     ∧ Elan.is_file example_os
         (Elan.same_directory_candidate example_os "corpus/x.eaf" url) = false)
  ∧ Elan.get_eaf_media_path example_os "corpus/x.eaf"
      [example_descriptor "media/a.wav"] ≠ inl Elan.KeyError.
Proof.
  apply (get_eaf_media_path_not_found example_os "corpus/x.eaf").
  repeat constructor. rewrite example_descriptor_url. by eexists.
Defined.

Lemma get_eaf_media_path_relative_first_witness :
  Elan.get_eaf_media_path example_os "corpus/x.eaf"
    ([example_descriptor "media/b.wav"]
     ++ example_descriptor "media/c.wav" :: [])
  = inr (Elan.relative_candidate example_os "corpus/x.eaf" "media/c.wav").
Proof.
  apply (get_eaf_media_path_relative_first example_os "corpus/x.eaf").
  - repeat constructor. exists "media/b.wav".
    split; [apply example_descriptor_url|reflexivity].
  - apply example_descriptor_url.
  - reflexivity.
Defined.
